(** * Circuit aggregation service (app/services/circuit_aggregation.py)

    A shallow embedding of the multi-source circuit aggregation engine and
    of the panel parameter store.  Python floats are modelled as exact
    rationals [Q]; Python's [round(x, n)] is round-half-to-even of the exact
    value.  Python strings are Stdlib strings; [str.lower], [str.upper] and
    [str.strip] are modelled on their ASCII behaviour.  Timestamps
    ([datetime.now()]) are provenance only and are not modelled. *)

From Stdlib Require Import ZArith QArith Qround Lqa String Ascii List.
From stdpp Require Import base gmap strings list.

Open Scope Z_scope.

(** ** Python helpers *)

Module Py.

(** [min(a, b)] returns [b] only when [b < a]. *)
Definition qltb (a b : Q) : bool := negb (Qle_bool b a).
Definition qgeb (a b : Q) : bool := Qle_bool b a.
Definition min (a b : Q) : Q := if qltb b a then b else a.

(** Round half to even of the exact value to an integer. *)
Definition round_half_even (x : Q) : Z :=
  let f := Qfloor x in
  let r := (x - inject_Z f)%Q in
  if qltb (1#2) r then f + 1
  else if Qeq_bool r (1#2) then (if Z.even f then f else f + 1)
  else f.

(** [round(x, nd)] *)
Definition round (x : Q) (nd : nat) : Q :=
  let s := Z.to_pos (10 ^ Z.of_nat nd) in
  round_half_even (x * (Zpos s # 1)) # s.

(** ASCII whitespace as recognised by [str.isspace]. *)
Definition is_space (c : ascii) : bool :=
  let n := nat_of_ascii c in
  ((9 <=? n) && (n <=? 13))%nat || ((28 <=? n) && (n <=? 32))%nat.

Fixpoint lstrip (s : string) : string :=
  match s with
  | EmptyString => EmptyString
  | String c s' => if is_space c then lstrip s' else s
  end.

Definition rstrip (s : string) : string :=
  string_of_list_ascii (rev (list_ascii_of_string (lstrip
    (string_of_list_ascii (rev (list_ascii_of_string s)))))).

Definition strip (s : string) : string := rstrip (lstrip s).

Definition lower_char (c : ascii) : ascii :=
  let n := nat_of_ascii c in
  if ((65 <=? n) && (n <=? 90))%nat then ascii_of_nat (n + 32) else c.

Definition upper_char (c : ascii) : ascii :=
  let n := nat_of_ascii c in
  if ((97 <=? n) && (n <=? 122))%nat then ascii_of_nat (n - 32) else c.

Fixpoint map_chars (f : ascii -> ascii) (s : string) : string :=
  match s with
  | EmptyString => EmptyString
  | String c s' => String (f c) (map_chars f s')
  end.

Definition lower (s : string) : string := map_chars lower_char s.
Definition upper (s : string) : string := map_chars upper_char s.

(** Truthiness of a string: non-empty. *)
Definition str_truthy (s : string) : bool :=
  match s with EmptyString => false | _ => true end.

(** [str(n)] of a Python int: its decimal representation. *)
Fixpoint dec_aux (fuel : nat) (n : Z) (acc : string) : string :=
  match fuel with
  | O => acc
  | S f =>
      let acc' := String (ascii_of_nat (48 + Z.to_nat (n mod 10))) acc in
      if n / 10 =? 0 then acc' else dec_aux f (n / 10) acc'
  end.

Definition str_int (z : Z) : string :=
  if z <? 0 then String "-" (dec_aux (Pos.size_nat (Z.to_pos (- z))) (- z) EmptyString)
  else dec_aux (Pos.size_nat (Z.to_pos z)) z EmptyString.

End Py.

(** ** Data model *)

Inductive ExtractionMethod :=
| TEXT_OCR
| AI_VISION
| MANUAL
| AI_OCR_FALLBACK.

Definition ExtractionMethod_eqb (a b : ExtractionMethod) : bool :=
  match a, b with
  | TEXT_OCR, TEXT_OCR | AI_VISION, AI_VISION
  | MANUAL, MANUAL | AI_OCR_FALLBACK, AI_OCR_FALLBACK => true
  | _, _ => false
  end.

(** [METHOD_CONFIDENCE_WEIGHTS.get(method, 0.5)]: every method has an entry. *)
Definition METHOD_CONFIDENCE_WEIGHTS (m : ExtractionMethod) : Q :=
  match m with
  | MANUAL => 70 # 100
  | AI_VISION => 85 # 100
  | AI_OCR_FALLBACK => 70 # 100
  | TEXT_OCR => 60 # 100
  end.

Definition CONFLICT_THRESHOLD : Q := 3 # 10.

(** [ResolvedField] *)
Record ResolvedField (V : Type) := mkResolvedField {
  rf_value : option V;
  rf_confidence : Q;
  rf_sources : list string;
  rf_has_conflict : bool;
  rf_competing_values : list (V * Q)
}.
Arguments mkResolvedField {V}.
Arguments rf_value {V}.
Arguments rf_confidence {V}.
Arguments rf_sources {V}.
Arguments rf_has_conflict {V}.
Arguments rf_competing_values {V}.

Definition empty_field {V} : ResolvedField V := mkResolvedField None 0%Q [] false [].

(** ** Field resolver: [CircuitAggregationService._resolve_field] *)

Section ResolveField.
Context {V K : Type}.
(** normalisation of a value to its dictionary key, and key equality *)
Variable normalize : V -> K.
Variable key_eqb : K -> K -> bool.

(** An entry of [value_groups]: [(conf, source, method, value)]. *)
Definition entry : Type := (Q * string * ExtractionMethod * V)%type.
Definition e_conf (e : entry) : Q := let '(c, _, _, _) := e in c.
Definition e_source (e : entry) : string := let '(_, s, _, _) := e in s.
Definition e_method (e : entry) : ExtractionMethod := let '(_, _, m, _) := e in m.
Definition e_value (e : entry) : V := let '(_, _, _, v) := e in v.

(** [value_groups]: an insertion-ordered dict from normalised value to a
    non-empty list of entries, stored as its first entry and the rest. *)
Fixpoint group_insert (k : K) (e : entry) (gs : list (K * entry * list entry))
  : list (K * entry * list entry) :=
  match gs with
  | [] => [(k, e, [])]
  | (k', e0, rest) :: gs' =>
      if key_eqb k k' then (k', e0, rest ++ [e]) :: gs'
      else (k', e0, rest) :: group_insert k e gs'
  end.

Definition value_groups (obs : list (V * Q * string * ExtractionMethod))
  : list (K * entry * list entry) :=
  fold_left (fun gs '(v, c, s, m) => group_insert (normalize v) (c, s, m, v) gs)
    obs [].

(** the fusion loop over one group, [product *= (1.0 - effective_conf)].
    The exact product differs from the floating-point one by rounding at
    each step (a factor [1.0 - 1e-17] is [1.0] in floats); the properties
    proved below either keep a margin for it or use only that every
    step is monotone, which rounding preserves. *)
Definition fuse_product (l : list entry) : Q :=
  fold_left (fun p e =>
    (p * (1 - Py.min (e_conf e) (METHOD_CONFIDENCE_WEIGHTS (e_method e))))%Q) l 1%Q.

Definition add_source (ss : list string) (s : string) : list string :=
  if existsb (String.eqb s) ss then ss else ss ++ [s].

Definition group_sources (l : list entry) : list string :=
  fold_left (fun ss e => add_source ss (e_source e)) l [].

(** [min(0.98, 1.0 - product)]; in floats [1.0 - (1.0 - x)] need not be [x]. *)
Definition combined_conf (l : list entry) : Q :=
  Py.min (98 # 100) (1 - fuse_product l).

Definition value_confidence (g : K * entry * list entry) : V * Q * list string :=
  let '(_, e0, rest) := g in
  (e_value e0, combined_conf (e0 :: rest), group_sources (e0 :: rest)).

Definition vc_conf (x : V * Q * list string) : Q := let '(_, c, _) := x in c.

(** [list.sort(key=conf, reverse=True)]: a stable descending sort. *)
Fixpoint insert_desc (x : V * Q * list string) (l : list (V * Q * list string))
  : list (V * Q * list string) :=
  match l with
  | [] => [x]
  | y :: l' => if Py.qltb (vc_conf y) (vc_conf x) then x :: l else y :: insert_desc x l'
  end.

Definition sort_desc (l : list (V * Q * list string)) : list (V * Q * list string) :=
  fold_left (fun acc x => insert_desc x acc) l [].

(** the conflict loop over [value_confidences[1:]] *)
Definition conflict_scan (best_conf : Q) (rest : list (V * Q * list string))
  : bool * list (V * Q) :=
  fold_left (fun '(hc, comp) '(v, c, _) =>
    if Py.qgeb c CONFLICT_THRESHOLD then
      (hc || Py.qgeb c (best_conf * (1 # 2)), comp ++ [(v, Py.round c 2)])
    else (hc, comp)) rest (false, []).

Definition resolve_field (obs : list (V * Q * string * ExtractionMethod))
  : ResolvedField V :=
  match obs with
  | [] => empty_field
  | _ =>
      match sort_desc (map value_confidence (value_groups obs)) with
      | [] => empty_field  (* unreachable: [obs] is non-empty *)
      | (best_value, best_conf, best_sources) :: rest =>
          let '(hc, comp) :=
            match rest with [] => (false, []) | _ => conflict_scan best_conf rest end in
          mkResolvedField (Some best_value) (Py.round best_conf 3) best_sources hc comp
      end
  end.
End ResolveField.

(** Normalisation used for string fields: [value.strip().lower()]. *)
Definition norm_str (s : string) : string := Py.lower (Py.strip s).

(** ** Observations, resolved circuits and the service state *)

(** [CircuitObservation] (the timestamp is not modelled). *)
Record CircuitObservation := mkCircuitObservation {
  circuit_num : Z;
  source_id : string;
  method : ExtractionMethod;
  description : option string;
  description_confidence : Q;
  breaker_amps : option Z;
  amps_confidence : Q;
  poles : option Z;
  poles_confidence : Q;
  load_amps : option Q;
  load_confidence : Q;
  load_type : option string;
  load_type_confidence : Q
}.

(** [ResolvedCircuit] *)
Record ResolvedCircuit := mkResolvedCircuit {
  rc_circuit_num : Z;
  rc_description : ResolvedField string;
  rc_breaker_amps : ResolvedField Z;
  rc_poles : ResolvedField Z;
  rc_load_amps : ResolvedField Q;
  rc_load_type : ResolvedField string;
  rc_observations_count : nat;
  rc_needs_review : bool
}.

(** The five field resolutions of [get_resolved_circuit] and the
    construction of the [ResolvedCircuit]. *)
Definition resolve_str := resolve_field norm_str String.eqb.
Definition resolve_int := resolve_field (fun z : Z => z) Z.eqb.
Definition resolve_float := resolve_field (fun q : Q => q) Qeq_bool.

Definition resolve_circuit (cn : Z) (observations : list CircuitObservation)
  : ResolvedCircuit :=
  let description_f := resolve_str
    (flat_map (fun o => match description o with
       | Some d => if Py.str_truthy d
                   then [(d, description_confidence o, source_id o, method o)] else []
       | None => [] end) observations) in
  let breaker_amps_f := resolve_int
    (flat_map (fun o => match breaker_amps o with
       | Some a => [(a, amps_confidence o, source_id o, method o)]
       | None => [] end) observations) in
  let poles_f := resolve_int
    (flat_map (fun o => match poles o with
       | Some p => [(p, poles_confidence o, source_id o, method o)]
       | None => [] end) observations) in
  let load_amps_f := resolve_float
    (flat_map (fun o => match load_amps o with
       | Some l => [(l, load_confidence o, source_id o, method o)]
       | None => [] end) observations) in
  let load_type_f := resolve_str
    (flat_map (fun o => match load_type o with
       | Some t => if Py.str_truthy t
                   then [(t, load_type_confidence o, source_id o, method o)] else []
       | None => [] end) observations) in
  {| rc_circuit_num := cn;
     rc_description := description_f;
     rc_breaker_amps := breaker_amps_f;
     rc_poles := poles_f;
     rc_load_amps := load_amps_f;
     rc_load_type := load_type_f;
     rc_observations_count := length observations;
     rc_needs_review :=
       existsb (fun b => b) [rf_has_conflict description_f; rf_has_conflict breaker_amps_f;
                             rf_has_conflict poles_f; rf_has_conflict load_type_f] |}.

(** [self._observations] and [self._resolved_cache]. *)
Record AggState := mkAggState {
  observations : gmap string (gmap Z (list CircuitObservation));
  resolved_cache : gmap string (gmap Z ResolvedCircuit)
}.

Definition empty_state : AggState := mkAggState ∅ ∅.

(** [add_observation]: the keyword arguments are those of the record
    [o] built by the method, whose [circuit_num] is the [circuit_num] argument. *)
Definition add_observation (st : AggState) (task_id : string) (o : CircuitObservation)
  : AggState :=
  let cn := circuit_num o in
  let per_task := default ∅ (observations st !! task_id) in
  let lst := default [] (per_task !! cn) in
  let obs' := <[task_id := <[cn := lst ++ [o]]> per_task]> (observations st) in
  let cache' :=
    match resolved_cache st !! task_id with
    | Some c =>
        match c !! cn with
        | Some _ => <[task_id := delete cn c]> (resolved_cache st)
        | None => resolved_cache st
        end
    | None => resolved_cache st
    end in
  mkAggState obs' cache'.

(** [get_resolved_circuit]: returns the result and the updated state
    (the cache is filled on a miss). *)
Definition get_resolved_circuit (st : AggState) (task_id : string) (cn : Z)
  : option ResolvedCircuit * AggState :=
  match observations st !! task_id with
  | None => (None, st)
  | Some per_task =>
      match per_task !! cn with
      | None => (None, st)
      | Some obs =>
          match resolved_cache st !! task_id ≫= lookup cn with
          | Some rc => (Some rc, st)
          | None =>
              let rc := resolve_circuit cn obs in
              let c := default ∅ (resolved_cache st !! task_id) in
              (Some rc, mkAggState (observations st) (<[task_id := <[cn := rc]> c]> (resolved_cache st)))
          end
      end
  end.

(** ** [ResolvedCircuit.to_dict] *)

Record CircuitDict := mkCircuitDict {
  d_number : string;
  d_description : string;
  d_breaker_amps : Z;
  d_poles : Z;
  d_load_amps : Q;
  d_load_type : string;
  d_conf_description : Q;
  d_conf_breaker_amps : Q;
  d_conf_poles : Q;
  d_conf_load_type : Q;
  d_conf_overall : Q;
  d_sources : gset string;
  d_has_conflicts : bool;
  d_needs_review : bool;
  d_observations_count : nat
}.

(** [x or d] for the value of a field *)
Definition str_or (v : option string) (d : string) : string :=
  match v with Some s => if Py.str_truthy s then s else d | None => d end.
Definition int_or (v : option Z) (d : Z) : Z :=
  match v with Some z => if Z.eqb z 0 then d else z | None => d end.
Definition float_or (v : option Q) (d : Q) : Q :=
  match v with Some q => if Qeq_bool q 0 then d else q | None => d end.

(** [_overall_confidence] *)
Definition overall_confidence (rc : ResolvedCircuit) : Q :=
  let confidences :=
    (if Py.str_truthy (str_or (rf_value (rc_description rc)) "") then [rf_confidence (rc_description rc)] else []) ++
    (if negb (Z.eqb (int_or (rf_value (rc_breaker_amps rc)) 0) 0) then [rf_confidence (rc_breaker_amps rc)] else []) ++
    (if negb (Z.eqb (int_or (rf_value (rc_poles rc)) 0) 0) then [rf_confidence (rc_poles rc)] else []) ++
    (if Py.str_truthy (str_or (rf_value (rc_load_type rc)) "") then [rf_confidence (rc_load_type rc)] else []) in
  match confidences with
  | [] => 0%Q
  | _ => (fold_left Qplus confidences 0 / inject_Z (Z.of_nat (length confidences)))%Q
  end.

Definition to_dict (rc : ResolvedCircuit) : CircuitDict :=
  {| d_number := Py.str_int (rc_circuit_num rc);
     d_description := str_or (rf_value (rc_description rc)) "";
     d_breaker_amps := int_or (rf_value (rc_breaker_amps rc)) 0;
     d_poles := int_or (rf_value (rc_poles rc)) 1;
     d_load_amps := float_or (rf_value (rc_load_amps rc)) 0;
     d_load_type := str_or (rf_value (rc_load_type rc)) "";
     d_conf_description := Py.round (rf_confidence (rc_description rc)) 2;
     d_conf_breaker_amps := Py.round (rf_confidence (rc_breaker_amps rc)) 2;
     d_conf_poles := Py.round (rf_confidence (rc_poles rc)) 2;
     d_conf_load_type := Py.round (rf_confidence (rc_load_type rc)) 2;
     d_conf_overall := Py.round (overall_confidence rc) 2;
     d_sources := list_to_set (rf_sources (rc_description rc) ++ rf_sources (rc_breaker_amps rc)
                               ++ rf_sources (rc_poles rc) ++ rf_sources (rc_load_type rc));
     d_has_conflicts := existsb (fun b => b)
       [rf_has_conflict (rc_description rc); rf_has_conflict (rc_breaker_amps rc);
        rf_has_conflict (rc_poles rc); rf_has_conflict (rc_load_type rc)];
     d_needs_review := rc_needs_review rc;
     d_observations_count := rc_observations_count rc |}.

(** ** Dynamic Python values and exceptions *)

(** The values an OCR dictionary may hold in a numeric or textual slot. *)
Inductive pyval :=
| PyStr (s : string)
| PyInt (z : Z)
| PyNone.

Inductive PyExc := ValueError | TypeError.

Inductive PyResult (A : Type) :=
| Ok (a : A)
| Raise (e : PyExc).
Arguments Ok {A}.
Arguments Raise {A}.

Definition pbind {A B} (r : PyResult A) (f : A -> PyResult B) : PyResult B :=
  match r with Ok a => f a | Raise e => Raise e end.


Definition is_digit (c : ascii) : bool :=
  let n := nat_of_ascii c in ((48 <=? n) && (n <=? 57))%nat.
Definition digit_val (c : ascii) : Z := Z.of_nat (nat_of_ascii c - 48).

(** digits with single underscores between them, as [int()] accepts *)
Fixpoint digits_us (l : list ascii) (acc : Z) (last_us : bool) : option Z :=
  match l with
  | [] => if last_us then None else Some acc
  | c :: l' =>
      if is_digit c then digits_us l' (acc * 10 + digit_val c) false
      else if Ascii.eqb c "_" then (if last_us then None else digits_us l' acc true)
      else None
  end.

Definition parse_unsigned (l : list ascii) : option Z :=
  match l with
  | c :: l' => if is_digit c then digits_us l' (digit_val c) false else None
  | [] => None
  end.

(** [int(s)] for a string: surrounding whitespace, an optional sign,
    decimal digits. *)
Definition parse_int_str (s : string) : option Z :=
  match list_ascii_of_string (Py.strip s) with
  | "-"%char :: l => option_map Z.opp (parse_unsigned l)
  | "+"%char :: l => parse_unsigned l
  | l => parse_unsigned l
  end.

(** [int(v)] *)
Definition py_int (v : pyval) : PyResult Z :=
  match v with
  | PyInt z => Ok z
  | PyStr s => match parse_int_str s with Some z => Ok z | None => Raise ValueError end
  | PyNone => Raise TypeError
  end.

(** ** Bulk ingestion: [add_observations_from_ocr_result] *)

(** One circuit dictionary of the extraction result.  [None] in
    [oc_number] is an absent key; the other optional slots are read with
    [circuit.get(key)], for which an absent key and [None] coincide. *)
Record OcrCircuit := mkOcrCircuit {
  oc_number : option pyval;
  oc_description : option string;
  oc_breaker_amps : option pyval;
  oc_breaker_poles : option pyval;
  oc_load_type : option string;
  oc_confidence : option Q;
  oc_visual_pole_detection : bool
}.

Record VisualBreaker := mkVisualBreaker {
  vb_circuits : list Z;
  vb_poles : option Z;
  vb_amps : option Z;
  vb_description : option string;
  vb_load_type : option string
}.

Record VisualBreakers := mkVisualBreakers {
  ai_vision_success : bool;
  breakers : list VisualBreaker
}.

Definition LOAD_TYPES : list string := ["LTG"; "RCP"; "MTR"; "C"; "NC"]%string.

Definition is_missing (v : pyval) : bool :=
  match v with PyStr s => String.eqb s "MISSING" | _ => false end.

(** the coercion of [breaker_amps] / [breaker_poles] *)
Definition coerce_int (v : option pyval) : option Z :=
  match v with
  | None | Some PyNone => None
  | Some v => if is_missing v then None
              else match py_int v with Ok z => Some z | Raise _ => None end
  end.

Definition coerce_load_type (v : option string) : option string :=
  match v with
  | None => None
  | Some s => if String.eqb s "MISSING" then None
              else let t := Py.strip (Py.upper s) in
                   if existsb (String.eqb t) LOAD_TYPES then Some t else None
  end.

Definition coerce_desc (v : option string) : option string :=
  match v with Some s => if String.eqb s "MISSING" then None else Some s | None => None end.

Definition join (sep : string) (l : list string) : string :=
  match l with
  | [] => EmptyString
  | x :: xs => fold_left (fun acc y => acc ++ sep ++ y) xs x
  end%string.

Definition changed_int (nv ev : option Z) : bool :=
  match nv with
  | Some z => negb (Z.eqb z 0) && negb (bool_decide (nv = ev))
  | None => false
  end.
Definition changed_str (nv ev : option string) : bool :=
  match nv with
  | Some s => Py.str_truthy s && negb (bool_decide (nv = ev))
  | None => false
  end.

(** [existing.<field>.value if existing else None] *)
Definition existing_value {A} (existing : option ResolvedCircuit)
  (f : ResolvedCircuit -> ResolvedField A) : option A :=
  match existing with Some e => rf_value (f e) | None => None end.

(** The change notification built after an observation is added. *)
Definition notification (circuit_num : Z) (detection_method : ExtractionMethod)
  (existing : option ResolvedCircuit) (new_resolved : ResolvedCircuit) : option string :=
  let np := rf_value (rc_poles new_resolved) in
  let na := rf_value (rc_breaker_amps new_resolved) in
  let nd := rf_value (rc_description new_resolved) in
  let nt := rf_value (rc_load_type new_resolved) in
  let changed_parts :=
    (if changed_int np (existing_value existing rc_poles)
     then [(Py.str_int (default 0 np) ++ "-pole")%string] else []) ++
    (if changed_int na (existing_value existing rc_breaker_amps)
     then [(Py.str_int (default 0 na) ++ "A")%string] else []) ++
    (if changed_str nd (existing_value existing rc_description)
     then [("'" ++ default "" nd ++ "'")%string] else []) ++
    (if changed_str nt (existing_value existing rc_load_type)
     then [("type:" ++ default "" nt)%string] else []) in
  match changed_parts with
  | [] => None
  | _ =>
      let head := match existing with
                  | None => "BREAKER INFO FOUND - Circuit "%string
                  | Some _ => "BREAKER INFO UPDATED - Circuit "%string end in
      let n := (head ++ Py.str_int circuit_num ++ ": " ++ join ", " changed_parts)%string in
      Some (if (1 <? rc_observations_count new_resolved)%nat
            then (n ++ " (combined from " ++ Py.str_int (Z.of_nat (rc_observations_count new_resolved))
                    ++ " sources)")%string
            else if ExtractionMethod_eqb detection_method AI_VISION
                 then (n ++ " (AI Vision)")%string else n)
  end.

(** One iteration of the loop over [circuits]. *)
Definition ingest_circuit (task_id source : string) (meth : ExtractionMethod)
  (acc : AggState * list string) (circuit : OcrCircuit) : PyResult (AggState * list string) :=
  let '(st, notifications) := acc in
  pbind (match oc_number circuit with None => Ok 0 | Some v => py_int v end) (fun cn =>
  if cn <=? 0 then Ok (st, notifications) else
  let desc := coerce_desc (oc_description circuit) in
  let amps := coerce_int (oc_breaker_amps circuit) in
  let pls := coerce_int (oc_breaker_poles circuit) in
  let lt := coerce_load_type (oc_load_type circuit) in
  let detection_method := if oc_visual_pole_detection circuit then AI_VISION else meth in
  match desc, amps, pls, lt with
  | None, None, None, None => Ok (st, notifications)
  | _, _, _, _ =>
      let '(existing, st1) := get_resolved_circuit st task_id cn in
      let o := {| circuit_num := cn; source_id := source; method := detection_method;
                  description := desc;
                  description_confidence := default (8 # 10) (oc_confidence circuit);
                  breaker_amps := amps; amps_confidence := 8 # 10;
                  poles := pls;
                  poles_confidence := if oc_visual_pole_detection circuit then 9 # 10 else 7 # 10;
                  load_amps := None; load_confidence := 8 # 10;
                  load_type := lt; load_type_confidence := 8 # 10 |} in
      let st2 := add_observation st1 task_id o in
      let '(new_resolved, st3) := get_resolved_circuit st2 task_id cn in
      match new_resolved with
      | Some nr =>
          match notification cn detection_method existing nr with
          | Some n => Ok (st3, notifications ++ [n])
          | None => Ok (st3, notifications)
          end
      | None => Ok (st3, notifications)
      end
  end).

Definition breaker_observations (task_id source : string) (st : AggState) (b : VisualBreaker)
  : AggState :=
  let blt := match vb_load_type b with
             | Some s => if Py.str_truthy s then
                           let t := Py.strip (Py.upper s) in
                           if existsb (String.eqb t) LOAD_TYPES then Some t else None
                         else Some s
             | None => None end in
  fold_left (fun st cn =>
    add_observation st task_id
      {| circuit_num := cn; source_id := source; method := AI_VISION;
         description := match vb_description b with
                        | Some d => if Py.str_truthy d then Some d else None
                        | None => None end;
         description_confidence := 85 # 100;
         breaker_amps := vb_amps b; amps_confidence := 85 # 100;
         poles := vb_poles b; poles_confidence := 90 # 100;
         load_amps := None; load_confidence := 8 # 10;
         load_type := blt; load_type_confidence := 85 # 100 |}) (vb_circuits b) st.

Fixpoint fold_py {A B} (f : A -> B -> PyResult A) (l : list B) (a : A) : PyResult A :=
  match l with
  | [] => Ok a
  | x :: l' => pbind (f a x) (fold_py f l')
  end.

Definition add_observations_from_ocr_result (st : AggState) (task_id source : string)
  (circuits : list OcrCircuit) (meth : ExtractionMethod)
  (visual_breakers : option VisualBreakers) : PyResult (list string * AggState) :=
  pbind (fold_py (ingest_circuit task_id source meth) circuits (st, [])) (fun '(st1, notifications) =>
  let st2 := match visual_breakers with
             | Some vb => if ai_vision_success vb
                          then fold_left (breaker_observations task_id source) (breakers vb) st1
                          else st1
             | None => st1 end in
  Ok (notifications, st2)).

(** ** Panel parameter store: [PanelParameterStore] *)

(** [ParameterValue] (the timestamp is not modelled). *)
Record ParameterValue := mkParameterValue {
  pv_value : pyval;
  pv_confidence : Q;
  pv_method : ExtractionMethod;
  pv_source_id : string
}.

(** [ParameterValue.effective_confidence] *)
Definition effective_confidence (pv : ParameterValue) : Q :=
  Py.min 1 (pv_confidence pv * METHOD_CONFIDENCE_WEIGHTS (pv_method pv)).

(** The [reason] string, by its cases and the confidences it reports. *)
Inductive UpdateReason :=
| EmptyValueIgnored
| NewParameterSet (new_effective : Q)
| UpdatedHigher (new_effective existing_effective : Q)
| RejectedNotHigher (new_effective existing_effective : Q).

Definition is_empty_value (v : pyval) : bool :=
  match v with
  | PyNone => true
  | PyStr s => negb (Py.str_truthy (Py.strip s))
  | PyInt _ => false
  end.

(** [update_parameter]: returns [(was_updated, reason)] and the new store. *)
Definition update_parameter (store : gmap string (gmap string ParameterValue))
  (task_id param_name : string) (value : pyval) (confidence : Q)
  (meth : ExtractionMethod) (source_id : string)
  : (bool * UpdateReason) * gmap string (gmap string ParameterValue) :=
  if is_empty_value value then ((false, EmptyValueIgnored), store) else
  let task := default ∅ (store !! task_id) in
  let store1 := <[task_id := task]> store in
  let new_effective := Py.min 1 (confidence * METHOD_CONFIDENCE_WEIGHTS meth) in
  let pv := mkParameterValue value confidence meth source_id in
  match task !! param_name with
  | None => ((true, NewParameterSet new_effective), <[task_id := <[param_name := pv]> task]> store1)
  | Some existing =>
      let existing_effective := effective_confidence existing in
      if Py.qltb existing_effective new_effective then
        ((true, UpdatedHigher new_effective existing_effective),
         <[task_id := <[param_name := pv]> task]> store1)
      else ((false, RejectedNotHigher new_effective existing_effective), store1)
  end.

(** [get_parameter] *)
Definition get_parameter (store : gmap string (gmap string ParameterValue))
  (task_id param_name : string) : option ParameterValue :=
  store !! task_id ≫= lookup param_name.

(** [get_value] *)
Definition get_value (store : gmap string (gmap string ParameterValue))
  (task_id param_name : string) : option pyval :=
  option_map pv_value (get_parameter store task_id param_name).

(** [PanelParameterStore.TRACKED_PARAMETERS] *)
Definition TRACKED_PARAMETERS : list string :=
  ["voltage"; "phase"; "wire"; "main_bus_amps"; "main_breaker"; "mounting"; "feed";
   "location"; "fed_from"; "panel_name"; "short_circuit_rating"; "feed_thru_lugs"]%string.

Definition is_tracked (name : string) : bool := existsb (String.eqb name) TRACKED_PARAMETERS.

(** [update_parameters_batch]: [params] is the dict's item list in
    insertion order (its keys are distinct); the results dict is returned
    as its item list. *)
Definition update_parameters_batch (store : gmap string (gmap string ParameterValue))
  (task_id : string) (params : list (string * pyval)) (confidence : Q)
  (meth : ExtractionMethod) (source_id : string)
  : list (string * (bool * UpdateReason)) * gmap string (gmap string ParameterValue) :=
  fold_left (fun '(results, store) '(param_name, value) =>
    if is_tracked (Py.lower param_name) then
      let '(r, store') :=
        update_parameter store task_id (Py.lower param_name) value confidence meth source_id in
      (results ++ [(param_name, r)], store')
    else (results, store)) params ([], store).

(** [get_all_parameters] *)
Definition get_all_parameters (store : gmap string (gmap string ParameterValue))
  (task_id : string) : gmap string pyval :=
  match store !! task_id with
  | None => ∅
  | Some task => pv_value <$> task
  end.

(** One entry of [get_all_with_confidence] ([method.value] as the method). *)
Record ParameterInfo := mkParameterInfo {
  pi_value : pyval;
  pi_confidence : Q;
  pi_method : ExtractionMethod;
  pi_source : string
}.

Definition get_all_with_confidence (store : gmap string (gmap string ParameterValue))
  (task_id : string) : gmap string ParameterInfo :=
  match store !! task_id with
  | None => ∅
  | Some task =>
      (fun pv => mkParameterInfo (pv_value pv) (Py.round (effective_confidence pv) 2)
                   (pv_method pv) (pv_source_id pv)) <$> task
  end.

(** [PanelParameterStore.clear_task] *)
Definition clear_parameters (store : gmap string (gmap string ParameterValue))
  (task_id : string) : gmap string (gmap string ParameterValue) :=
  delete task_id store.

(** [CircuitAggregationService.clear_task] *)
Definition clear_task (st : AggState) (task_id : string) : AggState :=
  mkAggState (delete task_id (observations st)) (delete task_id (resolved_cache st)).

(** The loop of [get_all_resolved_circuits] over a list of circuit
    numbers; a [ResolvedCircuit] is always truthy, so [if resolved] is
    [is not None]. *)
Definition resolve_circuits_in (task_id : string) (keys : list Z)
  (acc : gmap Z ResolvedCircuit * AggState) : gmap Z ResolvedCircuit * AggState :=
  fold_left (fun '(result, st) cn =>
    let '(r, st') := get_resolved_circuit st task_id cn in
    match r with
    | Some rc => (<[cn := rc]> result, st')
    | None => (result, st')
    end) keys acc.

(** [get_all_resolved_circuits]: the loop runs over the circuit numbers of
    the task, here in the order of [map_to_list] (the Python dict's order is
    its insertion order; every property below holds for any order). *)
Definition get_all_resolved_circuits (st : AggState) (task_id : string)
  : gmap Z ResolvedCircuit * AggState :=
  match observations st !! task_id with
  | None => (∅, st)
  | Some per_task => resolve_circuits_in task_id (map fst (map_to_list per_task)) (∅, st)
  end.

(** The summary dict of [get_aggregation_summary] ([list(all_sources)] as a set). *)
Record AggregationSummary := mkAggregationSummary {
  total_circuits : nat;
  total_observations : nat;
  circuits_with_conflicts : nat;
  average_confidence : Q;
  summary_sources : gset string
}.

Definition get_aggregation_summary (st : AggState) (task_id : string)
  : AggregationSummary * AggState :=
  match observations st !! task_id with
  | None => (mkAggregationSummary 0 0 0 0 ∅, st)
  | Some _ =>
      let '(all_resolved, st') := get_all_resolved_circuits st task_id in
      let circuits := map snd (map_to_list all_resolved) in
      let '(all_sources, total_confidence, conflicts) :=
        fold_left (fun '(srcs, tc, n) c =>
          (srcs ∪ list_to_set (rf_sources (rc_description c))
                ∪ list_to_set (rf_sources (rc_breaker_amps c))
                ∪ list_to_set (rf_sources (rc_poles c)),
           (tc + overall_confidence c)%Q,
           if rc_needs_review c then S n else n)) circuits (∅, 0%Q, 0%nat) in
      let per_task := default ∅ (observations st' !! task_id) in
      (mkAggregationSummary
         (size all_resolved)
         (fold_left (fun n obs => n + length obs)%nat (map snd (map_to_list per_task)) 0%nat)
         conflicts
         (Py.round (if Nat.eqb (size all_resolved) 0 then 0%Q
                    else (total_confidence / inject_Z (Z.of_nat (size all_resolved)))%Q) 2)
         all_sources, st')
  end.

(** States reached by any sequence of the service's public operations. *)
Inductive service_reachable : AggState -> Prop :=
| sr_empty : service_reachable empty_state
| sr_add st task_id o :
    service_reachable st -> service_reachable (add_observation st task_id o)
| sr_ocr st task_id source circuits meth vb ns st' :
    service_reachable st ->
    add_observations_from_ocr_result st task_id source circuits meth vb = Ok (ns, st') ->
    service_reachable st'
| sr_get st task_id cn :
    service_reachable st -> service_reachable (snd (get_resolved_circuit st task_id cn))
| sr_all st task_id :
    service_reachable st -> service_reachable (snd (get_all_resolved_circuits st task_id))
| sr_summary st task_id :
    service_reachable st -> service_reachable (snd (get_aggregation_summary st task_id))
| sr_clear st task_id :
    service_reachable st -> service_reachable (clear_task st task_id).

(** Every cached [ResolvedCircuit] is the resolution of the current
    observations of its circuit. *)
Definition cache_exact (st : AggState) : Prop :=
  forall task_id cn rc, resolved_cache st !! task_id ≫= lookup cn = Some rc ->
  exists obs, observations st !! task_id ≫= lookup cn = Some obs /\ rc = resolve_circuit cn obs.

(** ** Reachable states of the aggregation service *)

(** The states the service goes through from its construction: each step
    is an [add_observation] or a [get_resolved_circuit] (which fills the
    cache); [add_observations_from_ocr_result] is a sequence of such steps. *)
Inductive reachable : AggState -> Prop :=
| reach_empty : reachable empty_state
| reach_add st task_id o : reachable st -> reachable (add_observation st task_id o)
| reach_get st task_id cn :
    reachable st -> reachable (snd (get_resolved_circuit st task_id cn)).

(** Every cached [ResolvedCircuit] is the resolution of some observation list. *)
Definition cache_wf (st : AggState) : Prop :=
  forall task_id cn rc, resolved_cache st !! task_id ≫= lookup cn = Some rc ->
  exists obs, rc = resolve_circuit cn obs.

(** The value of a list of decimal digits, most significant first. *)
Fixpoint dec_value (acc : Z) (l : list ascii) : Z :=
  match l with
  | [] => acc
  | c :: l' => dec_value (acc * 10 + digit_val c) l'
  end.

(** * Properties *)

(** ** Rationals, [min] and [round] *)

Lemma qltb_spec a b : Py.qltb a b = true <-> (a < b)%Q.
Proof.
  unfold Py.qltb. rewrite negb_true_iff. split; intro H.
  - apply Qnot_le_lt. intro H'. apply Qle_bool_iff in H'. congruence.
  - destruct (Qle_bool b a) eqn:E; [|reflexivity].
    apply Qle_bool_iff in E. exfalso. exact (Qlt_not_le _ _ H E).
Qed.

Lemma qltb_false a b : Py.qltb a b = false <-> (b <= a)%Q.
Proof.
  unfold Py.qltb. rewrite negb_false_iff. apply Qle_bool_iff.
Qed.

Lemma qgeb_spec a b : Py.qgeb a b = true <-> (b <= a)%Q.
Proof. apply Qle_bool_iff. Qed.

Lemma min_le_l a b : (Py.min a b <= a)%Q.
Proof.
  unfold Py.min. destruct (Py.qltb b a) eqn:E.
  - apply qltb_spec in E. apply Qlt_le_weak, E.
  - apply Qle_refl.
Qed.

Lemma min_le_r a b : (Py.min a b <= b)%Q.
Proof.
  unfold Py.min. destruct (Py.qltb b a) eqn:E.
  - apply Qle_refl.
  - apply qltb_false in E. exact E.
Qed.

Lemma min_glb a b x : (x <= a)%Q -> (x <= b)%Q -> (x <= Py.min a b)%Q.
Proof. unfold Py.min. destruct (Py.qltb b a); auto. Qed.

Lemma min_eq_r a b : (b < a)%Q -> Py.min a b = b.
Proof. intro H. unfold Py.min. apply qltb_spec in H. rewrite H. reflexivity. Qed.

Lemma round_half_even_proper x y : (x == y)%Q -> Py.round_half_even x = Py.round_half_even y.
Proof.
  intro Hxy. unfold Py.round_half_even.
  assert (Hf : Qfloor x = Qfloor y).
  { apply Z.le_antisymm; apply Qfloor_resp_le; rewrite Hxy; apply Qle_refl. }
  rewrite Hf.
  assert (Hr : (x - inject_Z (Qfloor y) == y - inject_Z (Qfloor y))%Q) by (rewrite Hxy; reflexivity).
  assert (E1 : Py.qltb (1#2) (x - inject_Z (Qfloor y)) = Py.qltb (1#2) (y - inject_Z (Qfloor y))).
  { apply Bool.eq_iff_eq_true. rewrite !qltb_spec. rewrite Hr. reflexivity. }
  assert (E2 : Qeq_bool (x - inject_Z (Qfloor y)) (1#2) = Qeq_bool (y - inject_Z (Qfloor y)) (1#2)).
  { apply Bool.eq_iff_eq_true. rewrite !Qeq_bool_iff. rewrite Hr. reflexivity. }
  rewrite E1, E2. reflexivity.
Qed.

Lemma round_proper x y n : (x == y)%Q -> Py.round x n = Py.round y n.
Proof.
  intro H. unfold Py.round. f_equal. apply round_half_even_proper. rewrite H. reflexivity.
Qed.

Lemma round_half_even_mono x y : (x <= y)%Q -> Py.round_half_even x <= Py.round_half_even y.
Proof.
  intro Hxy. unfold Py.round_half_even.
  pose proof (Qfloor_resp_le x y Hxy) as Hf.
  set (fx := Qfloor x) in *. set (fy := Qfloor y) in *.
  destruct (Z.eq_dec fx fy) as [Heq | Hne].
  - rewrite <- Heq.
    assert (Hr : (x - inject_Z fx <= y - inject_Z fx)%Q).
    { apply Qplus_le_compat; [exact Hxy | apply Qle_refl]. }
    destruct (Py.qltb (1#2) (y - inject_Z fx)) eqn:Ey.
    + destruct (Py.qltb (1#2) (x - inject_Z fx)); [lia|].
      destruct (Qeq_bool _ _); [destruct (Z.even fx)|]; lia.
    + apply qltb_false in Ey.
      assert (Ex : Py.qltb (1#2) (x - inject_Z fx) = false).
      { apply qltb_false. eapply Qle_trans; eassumption. }
      rewrite Ex.
      destruct (Qeq_bool (y - inject_Z fx) (1#2)) eqn:Ey2.
      * destruct (Qeq_bool (x - inject_Z fx) (1#2)); [lia|].
        destruct (Z.even fx); lia.
      * destruct (Qeq_bool (x - inject_Z fx) (1#2)) eqn:Ex2; [|lia].
        apply Qeq_bool_iff in Ex2. apply Qeq_bool_neq in Ey2. exfalso. apply Ey2.
        apply Qle_antisym; [exact Ey|]. rewrite <- Ex2. exact Hr.
  - assert (fx + 1 <= fy) by lia.
    destruct (Py.qltb (1#2) (x - inject_Z fx)); [|destruct (Qeq_bool _ _); [destruct (Z.even fx)|]];
    destruct (Py.qltb (1#2) (y - inject_Z fy)); try destruct (Qeq_bool (y - inject_Z fy) _);
    try destruct (Z.even fy); lia.
Qed.

Lemma round_mono x y n : (x <= y)%Q -> (Py.round x n <= Py.round y n)%Q.
Proof.
  intro H. unfold Py.round.
  set (s := Z.to_pos (10 ^ Z.of_nat n)).
  assert (Hs : (x * (Zpos s # 1) <= y * (Zpos s # 1))%Q).
  { apply Qmult_le_compat_r; [exact H | unfold Qle; simpl; lia]. }
  pose proof (round_half_even_mono _ _ Hs) as Hz.
  unfold Qle; simpl. apply Z.mul_le_mono_nonneg_r; lia.
Qed.

(** Method weights are at most 0.85. *)
Lemma weight_le m : (METHOD_CONFIDENCE_WEIGHTS m <= 85 # 100)%Q.
Proof. destruct m; unfold Qle; simpl; lia. Qed.

Lemma weight_pos m : (0 < METHOD_CONFIDENCE_WEIGHTS m)%Q.
Proof. destruct m; unfold Qlt; simpl; lia. Qed.

Lemma round_half_even_close x :
  (inject_Z (Py.round_half_even x) - x <= 1#2)%Q /\ (x - inject_Z (Py.round_half_even x) <= 1#2)%Q.
Proof.
  pose proof (Qfloor_le x) as Hl. pose proof (Qlt_floor x) as Hu.
  rewrite inject_Z_plus in Hu. change (inject_Z 1) with 1%Q in Hu. unfold Py.round_half_even.
  set (f := Qfloor x) in *.
  destruct (Py.qltb (1#2) (x - inject_Z f)) eqn:E1.
  - apply qltb_spec in E1. rewrite inject_Z_plus. change (inject_Z 1) with 1%Q in *. split; lra.
  - apply qltb_false in E1.
    destruct (Qeq_bool (x - inject_Z f) (1#2)) eqn:E2.
    + apply Qeq_bool_iff in E2.
      destruct (Z.even f); [|rewrite inject_Z_plus]; change (inject_Z 1) with 1%Q in *; split; lra.
    + split; lra.
Qed.

Lemma round3_close x : (Py.round x 3 - x <= 1#2000)%Q /\ (x - Py.round x 3 <= 1#2000)%Q.
Proof.
  assert (Hs : Z.to_pos (10 ^ Z.of_nat 3) = 1000%positive) by reflexivity.
  unfold Py.round. rewrite Hs.
  destruct (round_half_even_close (x * (1000 # 1))) as [H1 H2].
  set (z := Py.round_half_even (x * (1000 # 1))) in *.
  assert (Hq : (z # 1000 == inject_Z z * (1 # 1000))%Q) by (unfold Qeq; simpl; lia).
  rewrite Hq. split; lra.
Qed.

(** ** Resolution of a single observation *)

Lemma combined_conf_single {V} (c : Q) (s : string) (m : ExtractionMethod) (v : V) :
  (combined_conf [(c, s, m, v)] == Py.min c (METHOD_CONFIDENCE_WEIGHTS m))%Q.
Proof.
  unfold combined_conf, fuse_product. simpl.
  pose proof (min_le_r c (METHOD_CONFIDENCE_WEIGHTS m)) as H1.
  pose proof (weight_le m) as H2.
  rewrite min_eq_r.
  - ring.
  - lra.
Qed.

(** Claim C1 (corrected).  A field with exactly one observation
    [(v, c, s, M)] with [c >= 0] resolves to [v] from source [s] with no
    conflict, and its confidence lies within 0.001 of
    [min(c, METHOD_CONFIDENCE_WEIGHTS[M])]; it may exceed it.  The exact
    model gives [round(min(c, w), 3)], within 0.0005; the margin up to
    0.001 covers the rounding of the code's [1.0 - (1.0 - min(c, w))],
    which is below 1e-15 when [0 <= min(c, w) <= 1]. *)
Theorem resolve_field_single_observation {V K} (normalize : V -> K) (key_eqb : K -> K -> bool)
  (v : V) (c : Q) (s : string) (m : ExtractionMethod) :
  (0 <= c)%Q ->
  let r := resolve_field normalize key_eqb [(v, c, s, m)] in
  rf_value r = Some v /\ rf_sources r = [s] /\ rf_has_conflict r = false /\
  (rf_confidence r - Py.min c (METHOD_CONFIDENCE_WEIGHTS m) <= 1 # 1000)%Q /\
  (Py.min c (METHOD_CONFIDENCE_WEIGHTS m) - rf_confidence r <= 1 # 1000)%Q.
Proof.
  intros _. cbn zeta.
  assert (Hc : rf_confidence (resolve_field normalize key_eqb [(v, c, s, m)])
               = Py.round (Py.min c (METHOD_CONFIDENCE_WEIGHTS m)) 3).
  { unfold resolve_field. simpl. apply round_proper, combined_conf_single. }
  rewrite Hc. destruct (round3_close (Py.min c (METHOD_CONFIDENCE_WEIGHTS m))) as [H1 H2].
  split; [reflexivity|]. split; [reflexivity|]. split; [reflexivity|].
  split; eapply Qle_trans; try eassumption; unfold Qle; simpl; lia.
Qed.

Lemma resolve_field_single_observation_witness :
  (0 <= 9 # 10)%Q /\
  (let r := resolve_int [(20%Z, 9 # 10, "photo1"%string, MANUAL)] in
   rf_value r = Some 20%Z /\ rf_sources r = ["photo1"%string] /\ rf_has_conflict r = false /\
   (rf_confidence r - Py.min (9 # 10) (METHOD_CONFIDENCE_WEIGHTS MANUAL) <= 1 # 1000)%Q /\
   (Py.min (9 # 10) (METHOD_CONFIDENCE_WEIGHTS MANUAL) - rf_confidence r <= 1 # 1000)%Q).
Proof.
  assert (H : (0 <= 9 # 10)%Q) by (unfold Qle; simpl; lia).
  split; [exact H|].
  exact (resolve_field_single_observation (fun z : Z => z) Z.eqb 20%Z (9 # 10) "photo1"%string MANUAL H).
Defined.

(** Claim C1, counterexample: one TEXT_OCR observation with raw confidence
    0.1236 resolves to confidence 0.124, higher than
    [min(0.1236, 0.60) = 0.1236]. *)
Lemma resolve_field_single_observation_rounds_up :
  (Py.min (1236 # 10000) (METHOD_CONFIDENCE_WEIGHTS TEXT_OCR)
   < rf_confidence (resolve_int [(20%Z, 1236 # 10000, "photo1"%string, TEXT_OCR)]))%Q.
Proof. vm_compute. reflexivity. Qed.

(** ** The stable descending sort *)

Section SortDesc.
Context {V : Type}.
Local Abbreviation vc := (V * Q * list string)%type.

(** [x] is the first element of [l] with the largest confidence. *)
Definition first_max (l : list vc) (x : vc) : Prop :=
  exists pre post, l = pre ++ x :: post /\
    Forall (fun y => (vc_conf y < vc_conf x)%Q) pre /\
    Forall (fun y => (vc_conf y <= vc_conf x)%Q) post.

Lemma insert_desc_perm (x : vc) (l : list vc) : Permutation (insert_desc x l) (x :: l).
Proof.
  induction l as [|y l IH]; simpl; [reflexivity|].
  destruct (Py.qltb (vc_conf y) (vc_conf x)); [reflexivity|].
  rewrite IH. apply perm_swap.
Qed.

Lemma fold_insert_perm (l acc : list vc) :
  Permutation (fold_left (fun acc x => insert_desc x acc) l acc) (l ++ acc).
Proof.
  revert acc. induction l as [|x l IH]; intros acc; simpl; [reflexivity|].
  rewrite IH, insert_desc_perm. symmetry. apply Permutation_middle.
Qed.

Lemma sort_desc_perm (l : list vc) : Permutation (sort_desc l) l.
Proof. unfold sort_desc. rewrite fold_insert_perm, app_nil_r. reflexivity. Qed.

Lemma first_max_all (l : list vc) (x : vc) :
  first_max l x -> forall y, In y l -> (vc_conf y <= vc_conf x)%Q.
Proof.
  intros (pre & post & -> & Hpre & Hpost) y Hy.
  apply in_app_or in Hy as [Hy | [<- | Hy]].
  - eapply List.Forall_forall in Hpre; [|exact Hy]. apply Qlt_le_weak, Hpre.
  - apply Qle_refl.
  - eapply List.Forall_forall in Hpost; [|exact Hy]. exact Hpost.
Qed.

Lemma first_max_snoc_lt (P : list vc) (h x : vc) :
  first_max P h -> (vc_conf h < vc_conf x)%Q -> first_max (P ++ [x]) x.
Proof.
  intros Hm Hlt. exists P, []. split; [reflexivity|]. split; [|constructor].
  apply List.Forall_forall. intros y Hy. eapply Qle_lt_trans; [|exact Hlt].
  eapply first_max_all; eassumption.
Qed.

Lemma first_max_snoc_le (P : list vc) (h x : vc) :
  first_max P h -> (vc_conf x <= vc_conf h)%Q -> first_max (P ++ [x]) h.
Proof.
  intros (pre & post & -> & Hpre & Hpost) Hle. exists pre, (post ++ [x]).
  split; [rewrite <- app_assoc; reflexivity|]. split; [exact Hpre|].
  apply Forall_app. split; [exact Hpost | constructor; [exact Hle | constructor]].
Qed.

Lemma fold_insert_head (l : list vc) :
  forall (P acc : list vc) (h : vc) (t : list vc), acc = h :: t -> first_max P h ->
  exists h' t', fold_left (fun acc x => insert_desc x acc) l acc = h' :: t' /\
                first_max (P ++ l) h'.
Proof.
  induction l as [|x l IH]; intros P acc h t -> Hm; simpl.
  - exists h, t. rewrite app_nil_r. split; [reflexivity | exact Hm].
  - replace (P ++ x :: l) with ((P ++ [x]) ++ l) by (rewrite <- app_assoc; reflexivity).
    destruct (Py.qltb (vc_conf h) (vc_conf x)) eqn:E.
    + apply qltb_spec in E. eapply IH; [reflexivity|]. eapply first_max_snoc_lt; eassumption.
    + apply qltb_false in E. eapply IH; [reflexivity|]. eapply first_max_snoc_le; eassumption.
Qed.

Lemma sort_desc_head (l : list vc) :
  l <> [] -> exists x rest, sort_desc l = x :: rest /\ first_max l x.
Proof.
  destruct l as [|x l]; [congruence|]. intros _. unfold sort_desc. simpl.
  apply (fold_insert_head l [x] [x] x []); [reflexivity|].
  exists [], []. split; [reflexivity|]. split; constructor.
Qed.

Lemma first_max_unique_aux (pre1 post1 pre2 post2 : list vc) (x y : vc) :
  pre1 ++ x :: post1 = pre2 ++ y :: post2 ->
  Forall (fun z => (vc_conf z < vc_conf x)%Q) pre1 ->
  Forall (fun z => (vc_conf z <= vc_conf x)%Q) post1 ->
  Forall (fun z => (vc_conf z < vc_conf y)%Q) pre2 ->
  Forall (fun z => (vc_conf z <= vc_conf y)%Q) post2 -> x = y.
Proof.
  revert pre2. induction pre1 as [|a pre1 IH]; intros [|b pre2] E H1 K1 H2 K2; simpl in E.
  - congruence.
  - injection E as -> E. exfalso. inversion H2 as [|? ? Hb _].
    assert (Hy : In y post1) by (rewrite E; apply in_or_app; right; left; reflexivity).
    eapply List.Forall_forall in K1; [|exact Hy]. exact (Qlt_not_le _ _ Hb K1).
  - injection E as <- E. exfalso. inversion H1 as [|? ? Ha _].
    assert (Hx : In x post2) by (rewrite <- E; apply in_or_app; right; left; reflexivity).
    eapply List.Forall_forall in K2; [|exact Hx]. exact (Qlt_not_le _ _ Ha K2).
  - injection E as _ E. inversion H1; inversion H2; subst. eapply IH; eauto.
Qed.

Lemma first_max_unique (l : list vc) (x y : vc) :
  first_max l x -> first_max l y -> x = y.
Proof.
  intros (pre1 & post1 & E1 & H1 & K1) (pre2 & post2 & E2 & H2 & K2).
  rewrite E1 in E2. eapply first_max_unique_aux; eassumption.
Qed.

Lemma sort_desc_rest_le (l : list vc) (x : vc) (rest : list vc) :
  sort_desc l = x :: rest -> first_max l x -> Forall (fun y => (vc_conf y <= vc_conf x)%Q) rest.
Proof.
  intros Hs Hm. apply List.Forall_forall. intros y Hy. eapply first_max_all; [exact Hm|].
  apply (Permutation_in _ (sort_desc_perm l)). rewrite Hs. right. exact Hy.
Qed.
End SortDesc.

(** ** Conflict detection *)

Definition vc_value {V} (x : V * Q * list string) : V := let '(v, _, _) := x in v.

Lemma conflict_scan_spec {V} (best_conf : Q) (rest : list (V * Q * list string)) :
  (match rest with [] => (false, []) | _ => conflict_scan best_conf rest end) =
  (existsb (fun y => Py.qgeb (vc_conf y) CONFLICT_THRESHOLD && Py.qgeb (vc_conf y) (best_conf * (1 # 2))) rest,
   map (fun y => (vc_value y, Py.round (vc_conf y) 2))
       (List.filter (fun y => Py.qgeb (vc_conf y) CONFLICT_THRESHOLD) rest)).
Proof.
  transitivity (conflict_scan best_conf rest); [destruct rest; reflexivity|].
  unfold conflict_scan.
  enough (H : forall hc comp, fold_left (fun '(hc, comp) '(v, c, _) =>
      if Py.qgeb c CONFLICT_THRESHOLD then
        (hc || Py.qgeb c (best_conf * (1 # 2)), comp ++ [(v, Py.round c 2)])
      else (hc, comp)) rest (hc, comp) =
    (hc || existsb (fun y => Py.qgeb (vc_conf y) CONFLICT_THRESHOLD && Py.qgeb (vc_conf y) (best_conf * (1 # 2))) rest,
     comp ++ map (fun y => (vc_value y, Py.round (vc_conf y) 2))
       (List.filter (fun y => Py.qgeb (vc_conf y) CONFLICT_THRESHOLD) rest))).
  { rewrite H. reflexivity. }
  induction rest as [|[[v c] ss] rest IH]; intros hc comp; simpl.
  - rewrite orb_false_r, app_nil_r. reflexivity.
  - change (vc_conf (v, c, ss)) with c. change (vc_value (v, c, ss)) with v.
    destruct (Py.qgeb c CONFLICT_THRESHOLD); simpl; rewrite IH.
    + rewrite orb_assoc, <- app_assoc. reflexivity.
    + reflexivity.
Qed.

Lemma value_groups_nil {V K} (normalize : V -> K) key_eqb :
  value_groups normalize key_eqb [] = [].
Proof. reflexivity. Qed.

(** Claim C2.  When the observations of a field form at least two groups,
    the groups sorted by fused confidence start with the winner [best]
    (followed by the other groups [rest], none more confident than it);
    [has_conflict] holds exactly when some group of [rest] has confidence
    at least [CONFLICT_THRESHOLD] (0.3) and at least half of the winner's;
    and every group of [rest] reaching 0.3 is listed in
    [competing_values] (with its confidence rounded to 2 decimals). *)
Theorem resolve_field_conflict {V K} (normalize : V -> K) (key_eqb : K -> K -> bool)
  (obs : list (V * Q * string * ExtractionMethod)) :
  (2 <= length (value_groups normalize key_eqb obs))%nat ->
  let groups := map value_confidence (value_groups normalize key_eqb obs) in
  let r := resolve_field normalize key_eqb obs in
  exists best rest,
    sort_desc groups = best :: rest /\
    Permutation (best :: rest) groups /\
    rf_value r = Some (vc_value best) /\
    Forall (fun y => (vc_conf y <= vc_conf best)%Q) rest /\
    (rf_has_conflict r = true <->
       Exists (fun y => (CONFLICT_THRESHOLD <= vc_conf y)%Q /\
                        (vc_conf best * (1 # 2) <= vc_conf y)%Q) rest) /\
    (forall y, In y rest -> (CONFLICT_THRESHOLD <= vc_conf y)%Q ->
       In (vc_value y, Py.round (vc_conf y) 2) (rf_competing_values r)).
Proof.
  intros Hlen groups r.
  assert (Hne : groups <> []).
  { unfold groups. intro H. apply map_eq_nil in H. rewrite H in Hlen. simpl in Hlen. lia. }
  destruct (sort_desc_head groups Hne) as (best & rest & Hs & Hm).
  exists best, rest.
  assert (Hr : r = mkResolvedField (Some (vc_value best)) (Py.round (vc_conf best) 3)
                 (let '(_, _, bs) := best in bs)
                 (existsb (fun y => Py.qgeb (vc_conf y) CONFLICT_THRESHOLD
                                    && Py.qgeb (vc_conf y) (vc_conf best * (1 # 2))) rest)
                 (map (fun y => (vc_value y, Py.round (vc_conf y) 2))
                    (List.filter (fun y => Py.qgeb (vc_conf y) CONFLICT_THRESHOLD) rest))).
  { unfold r, resolve_field. destruct obs as [|o obs'].
    - rewrite value_groups_nil in Hlen. simpl in Hlen. lia.
    - fold (groups). rewrite Hs. destruct best as [[bv bc] bs].
      rewrite conflict_scan_spec. reflexivity. }
  split; [exact Hs|]. split.
  { rewrite <- Hs. apply sort_desc_perm. }
  split; [rewrite Hr; reflexivity|]. split; [eapply sort_desc_rest_le; eassumption|].
  rewrite Hr. simpl. split.
  - rewrite existsb_exists, List.Exists_exists. split.
    + intros (y & Hy & Hb). apply andb_true_iff in Hb as [H1 H2].
      apply qgeb_spec in H1, H2. exists y. split; [exact Hy | split; assumption].
    + intros (y & Hy & H1 & H2). exists y. split; [exact Hy|].
      apply andb_true_iff. split; apply qgeb_spec; assumption.
  - intros y Hy Hc. apply in_map_iff. exists y. split; [reflexivity|].
    apply filter_In. split; [exact Hy | apply qgeb_spec, Hc].
Qed.

(** The scenario of two TEXT_OCR readings 20 and 30, both at 0.9. *)
Definition obs_tie : list (Z * Q * string * ExtractionMethod) :=
  [(20, 9 # 10, "photoC"%string, TEXT_OCR); (30, 9 # 10, "photoD"%string, TEXT_OCR)].

Lemma resolve_field_conflict_witness :
  (2 <= length (value_groups (fun z : Z => z) Z.eqb obs_tie))%nat /\
  let groups := map value_confidence (value_groups (fun z : Z => z) Z.eqb obs_tie) in
  let r := resolve_field (fun z : Z => z) Z.eqb obs_tie in
  exists best rest,
    sort_desc groups = best :: rest /\
    Permutation (best :: rest) groups /\
    rf_value r = Some (vc_value best) /\
    Forall (fun y => (vc_conf y <= vc_conf best)%Q) rest /\
    (rf_has_conflict r = true <->
       Exists (fun y => (CONFLICT_THRESHOLD <= vc_conf y)%Q /\
                        (vc_conf best * (1 # 2) <= vc_conf y)%Q) rest) /\
    (forall y, In y rest -> (CONFLICT_THRESHOLD <= vc_conf y)%Q ->
       In (vc_value y, Py.round (vc_conf y) 2) (rf_competing_values r)).
Proof.
  assert (H : (2 <= length (value_groups (fun z : Z => z) Z.eqb obs_tie))%nat) by (vm_compute; lia).
  split; [exact H | exact (resolve_field_conflict (fun z : Z => z) Z.eqb obs_tie H)].
Defined.

(** ** Corroboration *)

Lemma min_mono_r a b b' : (b <= b')%Q -> (Py.min a b <= Py.min a b')%Q.
Proof.
  intro H. unfold Py.min at 2. destruct (Py.qltb b' a).
  - eapply Qle_trans; [apply min_le_r | exact H].
  - apply min_le_l.
Qed.

Lemma min_lt_l a b : (Py.min a b < a)%Q -> Py.min a b = b.
Proof.
  unfold Py.min. destruct (Py.qltb b a); [reflexivity|]. intro H. exfalso.
  exact (Qlt_irrefl _ H).
Qed.

Lemma fuse_product_app {V} (l : list (@entry V)) (e : @entry V) :
  fuse_product (l ++ [e]) =
  (fuse_product l * (1 - Py.min (e_conf e) (METHOD_CONFIDENCE_WEIGHTS (e_method e))))%Q.
Proof. unfold fuse_product. rewrite fold_left_app. reflexivity. Qed.

Lemma one_minus_eff_pos c m : (0 < 1 - Py.min c (METHOD_CONFIDENCE_WEIGHTS m))%Q.
Proof.
  pose proof (min_le_r c (METHOD_CONFIDENCE_WEIGHTS m)). pose proof (weight_le m). lra.
Qed.

Lemma fuse_product_pos {V} (l : list (@entry V)) : (0 < fuse_product l)%Q.
Proof.
  unfold fuse_product.
  enough (H : forall p, (0 < p)%Q -> (0 < fold_left (fun p e =>
      (p * (1 - Py.min (e_conf e) (METHOD_CONFIDENCE_WEIGHTS (e_method e))))%Q) l p)%Q).
  { apply H. reflexivity. }
  induction l as [|e l IH]; intros p Hp; simpl; [exact Hp|].
  apply IH. apply Qmult_lt_0_compat; [exact Hp | apply one_minus_eff_pos].
Qed.

(** Adding an entry with non-negative effective confidence never lowers the
    fused confidence of its group; a positive one raises it below the cap. *)
Lemma combined_conf_snoc {V} (l : list (@entry V)) (e : @entry V) :
  (0 <= e_conf e)%Q ->
  (combined_conf l <= combined_conf (l ++ [e]))%Q /\
  ((0 < Py.min (e_conf e) (METHOD_CONFIDENCE_WEIGHTS (e_method e)))%Q ->
   (combined_conf l < 98 # 100)%Q -> (combined_conf l < combined_conf (l ++ [e]))%Q).
Proof.
  intro He. unfold combined_conf. rewrite fuse_product_app.
  set (p := fuse_product l). set (m := Py.min (e_conf e) (METHOD_CONFIDENCE_WEIGHTS (e_method e))).
  assert (Hp : (0 < p)%Q) by apply fuse_product_pos.
  assert (Hm : (0 <= m)%Q) by (apply min_glb; [exact He | apply Qlt_le_weak, weight_pos]).
  assert (Hpm : (0 <= p * m)%Q) by (apply Qmult_le_0_compat; lra).
  assert (Hr : (p * (1 - m) == p - p * m)%Q) by ring.
  split.
  - apply min_mono_r. rewrite Hr. lra.
  - intros Hm' Hlt. pose proof (min_lt_l _ _ Hlt) as Heq. rewrite Heq in Hlt |- *.
    assert (Hpm' : (0 < p * m)%Q) by (apply Qmult_lt_0_compat; assumption).
    unfold Py.min. destruct (Py.qltb (1 - p * (1 - m)) (98 # 100)).
    + rewrite Hr. lra.
    + exact Hlt.
Qed.

Section Groups.
Context {V K : Type}.
Variable normalize : V -> K.
Variable key_eqb : K -> K -> bool.
Hypothesis key_sym : forall a b, key_eqb a b = true -> key_eqb b a = true.
Hypothesis key_trans : forall a b c, key_eqb a b = true -> key_eqb b c = true -> key_eqb a c = true.

Definition gkey (g : K * @entry V * list (@entry V)) : K := let '(k, _, _) := g in k.

(** no key of [value_groups] matches a later one *)
Fixpoint distinct_keys (ks : list K) : Prop :=
  match ks with
  | [] => True
  | k :: ks' => Forall (fun k' => key_eqb k k' = false) ks' /\ distinct_keys ks'
  end.

Lemma key_false_sym a b : key_eqb a b = false -> key_eqb b a = false.
Proof.
  intro H. destruct (key_eqb b a) eqn:E; [|reflexivity]. apply key_sym in E. congruence.
Qed.

Lemma group_insert_keys k e gs :
  map gkey (group_insert key_eqb k e gs) = map gkey gs \/
  (Forall (fun g => key_eqb k (gkey g) = false) gs /\
   map gkey (group_insert key_eqb k e gs) = map gkey gs ++ [k]).
Proof.
  induction gs as [|[[k' e0] rest] gs IH]; simpl.
  - right. split; [constructor | reflexivity].
  - destruct (key_eqb k k') eqn:E; [left; reflexivity|].
    destruct IH as [IH | [HF IH]]; simpl; rewrite IH; [left; reflexivity|].
    right. split; [constructor; assumption | reflexivity].
Qed.

Lemma distinct_keys_snoc ks k :
  distinct_keys ks -> Forall (fun k' => key_eqb k k' = false) ks -> distinct_keys (ks ++ [k]).
Proof.
  induction ks as [|k0 ks IH]; simpl; intros Hd HF.
  - split; [constructor | exact I].
  - destruct Hd as [H0 Hd]. inversion HF as [|? ? Hk HF']; subst.
    split; [|apply IH; assumption].
    apply Forall_app. split; [exact H0|]. constructor; [apply key_false_sym, Hk | constructor].
Qed.

Lemma group_insert_distinct k e gs :
  distinct_keys (map gkey gs) -> distinct_keys (map gkey (group_insert key_eqb k e gs)).
Proof.
  intro Hd. destruct (group_insert_keys k e gs) as [H | [HF H]]; rewrite H; [exact Hd|].
  apply distinct_keys_snoc; [exact Hd|]. apply Forall_map. exact HF.
Qed.

Lemma value_groups_snoc obs v c s m :
  value_groups normalize key_eqb (obs ++ [(v, c, s, m)]) =
  group_insert key_eqb (normalize v) (c, s, m, v) (value_groups normalize key_eqb obs).
Proof. unfold value_groups. rewrite fold_left_app. reflexivity. Qed.

Lemma value_groups_distinct obs : distinct_keys (map gkey (value_groups normalize key_eqb obs)).
Proof.
  induction obs as [|[[[v c] s] m] obs IH] using rev_ind; [exact I|].
  rewrite value_groups_snoc. apply group_insert_distinct, IH.
Qed.

(** each group is keyed by the normalisation of its first value *)
Definition keyed_by_first (g : K * @entry V * list (@entry V)) : Prop :=
  let '(k, e0, _) := g in k = normalize (e_value e0).

Lemma value_groups_keyed obs : Forall keyed_by_first (value_groups normalize key_eqb obs).
Proof.
  induction obs as [|[[[v c] s] m] obs IH] using rev_ind; [constructor|].
  rewrite value_groups_snoc. revert IH. generalize (value_groups normalize key_eqb obs).
  induction l as [|[[k' e0] rest] gs IHg]; intros HF; simpl.
  - constructor; [reflexivity | constructor].
  - inversion HF as [|? ? Hg HF']; subst.
    destruct (key_eqb (normalize v) k'); constructor; auto.
Qed.

Lemma group_insert_at pre kw e0 rest post k e :
  distinct_keys (map gkey (pre ++ (kw, e0, rest) :: post)) -> key_eqb k kw = true ->
  group_insert key_eqb k e (pre ++ (kw, e0, rest) :: post) = pre ++ (kw, e0, rest ++ [e]) :: post.
Proof.
  induction pre as [|[[k' e0'] rest'] pre IH]; simpl; intros Hd Hk.
  - rewrite Hk. reflexivity.
  - destruct Hd as [HF Hd].
    assert (Hne : key_eqb k k' = false).
    { destruct (key_eqb k k') eqn:E; [|reflexivity]. exfalso.
      assert (Hin : In kw (map gkey (pre ++ (kw, e0, rest) :: post))).
      { rewrite map_app. apply in_or_app. right. left. reflexivity. }
      eapply List.Forall_forall in HF; [|exact Hin].
      rewrite (key_trans _ _ _ (key_sym _ _ E) Hk) in HF. discriminate. }
    rewrite Hne. f_equal. apply IH; assumption.
Qed.
End Groups.

Lemma resolve_field_head {V K} (normalize : V -> K) (key_eqb : K -> K -> bool)
  (obs : list (V * Q * string * ExtractionMethod)) x rest :
  obs <> [] ->
  sort_desc (map value_confidence (value_groups normalize key_eqb obs)) = x :: rest ->
  rf_value (resolve_field normalize key_eqb obs) = Some (vc_value x) /\
  rf_confidence (resolve_field normalize key_eqb obs) = Py.round (vc_conf x) 3.
Proof.
  intros Hne Hs. unfold resolve_field. destruct obs as [|o obs']; [congruence|].
  rewrite Hs. destruct x as [[bv bc] bs]. rewrite conflict_scan_spec. split; reflexivity.
Qed.

(** Claim C3 (corrected).  Let [bv] be the resolved value of a field and
    append an observation [(v, c, s, m)] with [c >= 0] whose normalised
    value agrees with [bv].  The field still resolves to [bv] and its
    reported confidence does not decrease.  The proof uses only that the
    winning group's confidence does not decrease and the other groups'
    confidences are unchanged: each step ([1 - e] with [0 <= e <= 1], the
    product, [1 - product], [min(0.98, .)], [round]) is monotone, in floats
    as in the exact model.  A strict increase is not claimed. *)
Theorem resolve_field_corroboration {V K} (normalize : V -> K) (key_eqb : K -> K -> bool)
  (key_sym : forall a b, key_eqb a b = true -> key_eqb b a = true)
  (key_trans : forall a b c, key_eqb a b = true -> key_eqb b c = true -> key_eqb a c = true)
  (obs : list (V * Q * string * ExtractionMethod)) (bv v : V) (c : Q) (s : string)
  (m : ExtractionMethod) :
  rf_value (resolve_field normalize key_eqb obs) = Some bv ->
  key_eqb (normalize v) (normalize bv) = true ->
  (0 <= c)%Q ->
  let r := resolve_field normalize key_eqb obs in
  let r' := resolve_field normalize key_eqb (obs ++ [(v, c, s, m)]) in
  rf_value r' = Some bv /\
  (rf_confidence r <= rf_confidence r')%Q.
Proof.
  intros Hw Hk Hc r r'.
  assert (Hobs : obs <> []) by (intro; subst; discriminate Hw).
  assert (Hne : map value_confidence (value_groups normalize key_eqb obs) <> []).
  { intro H. unfold resolve_field in Hw. destruct obs as [|o obs']; [congruence|].
    rewrite H in Hw. discriminate Hw. }
  destruct (sort_desc_head _ Hne) as (x & rest & Hs & Hm).
  destruct (resolve_field_head _ _ obs x rest Hobs Hs) as [Hv Hconf].
  rewrite Hw in Hv. injection Hv as Hbv.
  destruct Hm as (pre & post & Heq & Hpre & Hpost).
  apply List.map_eq_app in Heq as (l1 & l2 & Hgs & Hl1 & Hl2).
  apply List.map_eq_cons in Hl2 as (g & l2' & -> & Hg & Hl2').
  destruct g as [[kw e0] rg].
  assert (Hkw : kw = normalize (e_value e0)).
  { pose proof (value_groups_keyed normalize key_eqb obs) as HK. rewrite Hgs in HK.
    apply Forall_app in HK as [_ HK]. inversion HK as [|? ? Hh _]. exact Hh. }
  simpl in Hg. subst x. simpl in Hbv. subst bv.
  set (e := (c, s, m, v) : @entry V).
  assert (Hnew : value_groups normalize key_eqb (obs ++ [(v, c, s, m)])
                 = l1 ++ (kw, e0, rg ++ [e]) :: l2').
  { rewrite value_groups_snoc, Hgs. apply group_insert_at; [assumption | assumption | |].
    - rewrite <- Hgs. apply value_groups_distinct; assumption.
    - rewrite Hkw. exact Hk. }
  set (x' := value_confidence (kw, e0, rg ++ [e])).
  destruct (combined_conf_snoc (e0 :: rg) e Hc) as [Hle Hlt].
  assert (Hm' : first_max (map value_confidence (value_groups normalize key_eqb (obs ++ [(v, c, s, m)]))) x').
  { rewrite Hnew, map_app. simpl. exists pre, post. rewrite Hl1, Hl2'. split; [reflexivity|].
    split.
    - eapply List.Forall_impl; [|exact Hpre]. intros y Hy. simpl in *. eapply Qlt_le_trans; eassumption.
    - eapply List.Forall_impl; [|exact Hpost]. intros y Hy. simpl in *. eapply Qle_trans; eassumption. }
  assert (Hne' : map value_confidence (value_groups normalize key_eqb (obs ++ [(v, c, s, m)])) <> []).
  { rewrite Hnew, map_app. intro H. apply app_eq_nil in H as [_ H]. discriminate H. }
  destruct (sort_desc_head _ Hne') as (h & rest' & Hs' & Hmh).
  pose proof (first_max_unique _ _ _ Hmh Hm') as ->.
  assert (Hobs' : obs ++ [(v, c, s, m)] <> []) by (intro H; apply app_eq_nil in H as [_ H]; discriminate H).
  destruct (resolve_field_head _ _ _ x' rest' Hobs' Hs') as [Hv' Hconf'].
  fold r in Hconf. fold r' in Hv', Hconf'.
  split; [exact Hv'|].
  rewrite Hconf, Hconf'. apply round_mono. exact Hle.
Qed.

Lemma Z_eqb_sym_true (a b : Z) : Z.eqb a b = true -> Z.eqb b a = true.
Proof. rewrite !Z.eqb_eq. intros ->. reflexivity. Qed.

Lemma Z_eqb_trans_true (a b c : Z) : Z.eqb a b = true -> Z.eqb b c = true -> Z.eqb a c = true.
Proof. rewrite !Z.eqb_eq. intros -> ->. reflexivity. Qed.

(** Three AI_VISION readings of 20 A at 0.9. *)
Definition obs_three_vision : list (Z * Q * string * ExtractionMethod) :=
  [(20, 9 # 10, "photo1"%string, AI_VISION); (20, 9 # 10, "photo2"%string, AI_VISION);
   (20, 9 # 10, "photo3"%string, AI_VISION)].

(** Claim C3, counterexample: the fused confidence of three AI_VISION
    readings is already capped at 0.98; a fourth agreeing reading with
    effective confidence 0.85 leaves the resolved confidence at 0.98. *)
Lemma resolve_field_corroboration_capped :
  rf_value (resolve_int obs_three_vision) = Some 20 /\
  (0 < Py.min (9 # 10) (METHOD_CONFIDENCE_WEIGHTS AI_VISION))%Q /\
  ~ (rf_confidence (resolve_int obs_three_vision)
     < rf_confidence (resolve_int (obs_three_vision ++ [(20%Z, 9 # 10, "photo4"%string, AI_VISION)])))%Q.
Proof.
  split; [reflexivity|]. split; [vm_compute; reflexivity|].
  vm_compute. intro H. discriminate H.
Qed.

(** The scenario of a TEXT_OCR reading of 20 A at 0.9 corroborated by an
    AI_VISION reading at 0.95. *)
Definition obs_ocr_20 : list (Z * Q * string * ExtractionMethod) :=
  [(20, 9 # 10, "photoA"%string, TEXT_OCR)].

Lemma resolve_field_corroboration_witness :
  rf_value (resolve_int obs_ocr_20) = Some 20 /\
  Z.eqb 20 20 = true /\ (0 <= 95 # 100)%Q /\
  rf_value (resolve_int (obs_ocr_20 ++ [(20%Z, 95 # 100, "photoB"%string, AI_VISION)])) = Some 20 /\
  (rf_confidence (resolve_int obs_ocr_20)
   <= rf_confidence (resolve_int (obs_ocr_20 ++ [(20%Z, 95 # 100, "photoB"%string, AI_VISION)])))%Q.
Proof.
  assert (H1 : rf_value (resolve_int obs_ocr_20) = Some 20) by reflexivity.
  assert (H2 : Z.eqb 20 20 = true) by reflexivity.
  assert (H3 : (0 <= 95 # 100)%Q) by (vm_compute; discriminate).
  destruct (resolve_field_corroboration (fun z : Z => z) Z.eqb Z_eqb_sym_true Z_eqb_trans_true
              obs_ocr_20 20 20 (95 # 100) "photoB"%string AI_VISION H1 H2 H3) as [H4 H5].
  split; [exact H1|]. split; [exact H2|]. split; [exact H3|]. split; [exact H4 | exact H5].
Defined.

(** ** The resolution cache *)

Lemma get_resolved_circuit_fst st task_id cn :
  fst (get_resolved_circuit st task_id cn) =
  match observations st !! task_id ≫= lookup cn with
  | None => None
  | Some obs =>
      match resolved_cache st !! task_id ≫= lookup cn with
      | Some rc => Some rc
      | None => Some (resolve_circuit cn obs)
      end
  end.
Proof.
  unfold get_resolved_circuit.
  destruct (observations st !! task_id) as [per|]; simpl; [|reflexivity].
  destruct (per !! cn); simpl; [|reflexivity].
  destruct (resolved_cache st !! task_id ≫= lookup cn); reflexivity.
Qed.

Lemma add_observation_observations st task_id o task2 c2 :
  observations (add_observation st task_id o) !! task2 ≫= lookup c2 =
  if decide ((task2, c2) = (task_id, circuit_num o))
  then Some (default [] (observations st !! task_id ≫= lookup (circuit_num o)) ++ [o])
  else observations st !! task2 ≫= lookup c2.
Proof.
  unfold add_observation; simpl.
  destruct (decide (task2 = task_id)) as [->|Ht].
  - rewrite lookup_insert_eq. simpl.
    destruct (decide (c2 = circuit_num o)) as [->|Hc].
    + rewrite lookup_insert_eq, decide_True by reflexivity.
      destruct (observations st !! task_id); reflexivity.
    + rewrite lookup_insert_ne by congruence.
      rewrite decide_False by congruence.
      destruct (observations st !! task_id); simpl; [reflexivity|].
      rewrite lookup_empty. reflexivity.
  - rewrite lookup_insert_ne by congruence. rewrite decide_False by congruence. reflexivity.
Qed.

Lemma add_observation_cache st task_id o task2 c2 :
  resolved_cache (add_observation st task_id o) !! task2 ≫= lookup c2 =
  if decide ((task2, c2) = (task_id, circuit_num o)) then None
  else resolved_cache st !! task2 ≫= lookup c2.
Proof.
  unfold add_observation; simpl.
  destruct (resolved_cache st !! task_id) as [c|] eqn:Ec.
  - destruct (c !! circuit_num o) as [rc|] eqn:Ecn.
    + destruct (decide (task2 = task_id)) as [->|Ht].
      * rewrite lookup_insert_eq, Ec. simpl.
        destruct (decide (c2 = circuit_num o)) as [->|Hc].
        -- rewrite lookup_delete_eq, decide_True by reflexivity. reflexivity.
        -- rewrite lookup_delete_ne by congruence. rewrite decide_False by congruence. reflexivity.
      * rewrite lookup_insert_ne by congruence. rewrite decide_False by congruence. reflexivity.
    + case_decide as H; [|reflexivity]. injection H as -> ->. rewrite Ec. exact Ecn.
  - case_decide as H; [|reflexivity]. injection H as -> ->. rewrite Ec. reflexivity.
Qed.

(** Claim C4.  After [add_observation(task, o)] for circuit
    [c = o.circuit_num], [get_resolved_circuit(task, c)] returns the
    resolution of all observations of that circuit including [o]; for every
    other (task, circuit) pair, the cached [ResolvedCircuit] and the result
    of [get_resolved_circuit] are the same as before the call. *)
Theorem add_observation_cache_consistency (st : AggState) (task_id : string)
  (o : CircuitObservation) :
  let st' := add_observation st task_id o in
  fst (get_resolved_circuit st' task_id (circuit_num o)) =
    Some (resolve_circuit (circuit_num o)
            (default [] (observations st !! task_id ≫= lookup (circuit_num o)) ++ [o])) /\
  (forall task2 c2, (task2, c2) <> (task_id, circuit_num o) ->
     resolved_cache st' !! task2 ≫= lookup c2 = resolved_cache st !! task2 ≫= lookup c2 /\
     fst (get_resolved_circuit st' task2 c2) = fst (get_resolved_circuit st task2 c2)).
Proof.
  cbn zeta. split.
  - rewrite get_resolved_circuit_fst, add_observation_observations, add_observation_cache.
    rewrite !decide_True by reflexivity. reflexivity.
  - intros task2 c2 Hne.
    rewrite add_observation_cache, decide_False by exact Hne. split; [reflexivity|].
    rewrite !get_resolved_circuit_fst, add_observation_observations, add_observation_cache.
    rewrite !decide_False by exact Hne. reflexivity.
Qed.

(** ** Circuit numbers at the store boundary *)

(** Claim C5 (corrected).  [add_observation] checks nothing about the
    circuit number: for every circuit number, including non-positive
    ones, it appends the observation to the list of that (task, circuit)
    pair and raises nothing.  The circuits loop of
    [add_observations_from_ocr_result] skips an entry whose number is
    non-positive, leaving its state and notifications unchanged. *)
Theorem add_observation_no_circuit_check (st : AggState) (task_id : string)
  (o : CircuitObservation) :
  observations (add_observation st task_id o) !! task_id ≫= lookup (circuit_num o) =
    Some (default [] (observations st !! task_id ≫= lookup (circuit_num o)) ++ [o]) /\
  (forall source meth acc circuit n,
     (match oc_number circuit with None => Ok 0 | Some v => py_int v end) = Ok n -> n <= 0 ->
     ingest_circuit task_id source meth acc circuit = Ok acc).
Proof.
  split.
  - rewrite add_observation_observations, decide_True by reflexivity. reflexivity.
  - intros source meth [st0 ns] circuit n Hn Hle. unfold ingest_circuit. rewrite Hn. simpl.
    destruct (n <=? 0) eqn:E; [reflexivity | lia].
Qed.

Definition obs_circuit_zero : CircuitObservation :=
  {| circuit_num := 0; source_id := "manual"; method := MANUAL;
     description := Some "SPARE"; description_confidence := 8 # 10;
     breaker_amps := Some 20; amps_confidence := 8 # 10;
     poles := None; poles_confidence := 8 # 10;
     load_amps := None; load_confidence := 8 # 10;
     load_type := None; load_type_confidence := 8 # 10 |}.

(** Claim C5, counterexample: [add_observation] with circuit number 0
    does not fail; the observation is stored under circuit 0. *)
Lemma add_observation_circuit_zero_stored :
  observations (add_observation empty_state "task1" obs_circuit_zero) !! "task1"%string ≫= lookup 0
    = Some [obs_circuit_zero].
Proof. reflexivity. Qed.

(** ** Malformed numbers in bulk ingestion *)

Definition ocr_entry (number : option pyval) (desc : option string) (amps : option pyval)
  : OcrCircuit :=
  {| oc_number := number; oc_description := desc; oc_breaker_amps := amps;
     oc_breaker_poles := None; oc_load_type := None; oc_confidence := None;
     oc_visual_pole_detection := false |}.

(** A batch whose first entry carries the malformed circuit number "abc". *)
Definition batch_bad_number : list OcrCircuit :=
  [ocr_entry (Some (PyStr "abc")) (Some "LIGHTS") None;
   ocr_entry (Some (PyStr "2")) (Some "RECEPTACLES") (Some (PyStr "20"))].

(** Claim C6 (code bug).  A malformed [breaker_amps] string ("2O") is
    treated as absent and ingestion continues, but a malformed [number]
    string ("abc") makes [int(circuit.get('number', 0))] raise
    [ValueError], which nothing catches: the whole batch aborts and the
    following, well-formed entry is never ingested. *)
Theorem ocr_ingest_malformed_number_aborts :
  (exists notes st,
     add_observations_from_ocr_result empty_state "task1" "photo1"
       [ocr_entry (Some (PyStr "3")) (Some "LIGHTS") (Some (PyStr "2O"))] TEXT_OCR None = Ok (notes, st) /\
     option_map (map breaker_amps) (observations st !! "task1"%string ≫= lookup 3) = Some [None]) /\
  add_observations_from_ocr_result empty_state "task1" "photo1" batch_bad_number TEXT_OCR None
    = Raise ValueError.
Proof.
  split; [|reflexivity].
  eexists _, _. split; [reflexivity|]. reflexivity.
Qed.

(** ** Parameter store *)

(** Claim C7.  For a non-empty value, [update_parameter] accepts exactly
    when no value is stored or the new effective confidence
    [min(1.0, confidence * weight)] is strictly higher than the stored
    value's; on acceptance the stored [ParameterValue] is replaced by the
    new one, on rejection (in particular on a tie) it is unchanged. *)
Theorem update_parameter_strict_improvement
  (store : gmap string (gmap string ParameterValue)) (task_id param_name : string)
  (value : pyval) (confidence : Q) (meth : ExtractionMethod) (source_id : string) :
  is_empty_value value = false ->
  let res := update_parameter store task_id param_name value confidence meth source_id in
  let new_effective := Py.min 1 (confidence * METHOD_CONFIDENCE_WEIGHTS meth) in
  (fst (fst res) = true <->
     match get_parameter store task_id param_name with
     | None => True
     | Some pv => (effective_confidence pv < new_effective)%Q
     end) /\
  (fst (fst res) = true ->
     get_parameter (snd res) task_id param_name =
       Some (mkParameterValue value confidence meth source_id)) /\
  (fst (fst res) = false ->
     get_parameter (snd res) task_id param_name = get_parameter store task_id param_name) /\
  (forall pv, get_parameter store task_id param_name = Some pv ->
     (effective_confidence pv == new_effective)%Q -> fst (fst res) = false).
Proof.
  intros Hv res new_effective.
  unfold res, update_parameter, get_parameter. rewrite Hv. fold new_effective.
  destruct (store !! task_id) as [task|] eqn:Et;
    [simpl | cbn [default fst snd mbind option_bind]; rewrite lookup_empty].
  - destruct (task !! param_name) as [pv|] eqn:Ep; simpl.
    + destruct (Py.qltb (effective_confidence pv) new_effective) eqn:El; simpl.
      * apply qltb_spec in El.
        split; [tauto|]. split.
        { intros _. rewrite lookup_insert_eq. simpl. rewrite lookup_insert_eq. reflexivity. }
        split; [discriminate|].
        intros pv' [= <-] Heq. exfalso. rewrite Heq in El. exact (Qlt_irrefl _ El).
      * apply qltb_false in El.
        split.
        { split; [discriminate|]. intro H. exfalso. exact (Qlt_not_le _ _ H El). }
        split; [discriminate|]. split.
        { intros _. cbn [fst snd]. rewrite (lookup_insert_eq store task_id task). exact Ep. }
        intros; reflexivity.
    + split; [tauto|]. split.
      { intros _. rewrite lookup_insert_eq. simpl. rewrite lookup_insert_eq. reflexivity. }
      split; [discriminate|]. intros pv' H. discriminate H.
  - split; [tauto|]. split.
    { intros _. cbn [fst snd]. rewrite lookup_insert_eq. cbn [mbind option_bind].
      rewrite lookup_insert_eq. reflexivity. }
    split; [discriminate|]. intros pv' H. discriminate H.
Qed.

(** The voltage scenario: "480Y/277V" set manually at 0.7, then "208V"
    read by text OCR at 0.6. *)
Definition store_voltage : gmap string (gmap string ParameterValue) :=
  snd (update_parameter ∅ "task1" "voltage" (PyStr "480Y/277V") (7 # 10) MANUAL "user").

Lemma update_parameter_strict_improvement_witness :
  is_empty_value (PyStr "208V") = false /\
  fst (fst (update_parameter store_voltage "task1" "voltage" (PyStr "208V") (6 # 10) TEXT_OCR "photo1"))
    = false /\
  get_parameter (snd (update_parameter store_voltage "task1" "voltage" (PyStr "208V") (6 # 10) TEXT_OCR "photo1"))
    "task1" "voltage" = get_parameter store_voltage "task1" "voltage".
Proof.
  assert (H : is_empty_value (PyStr "208V") = false) by reflexivity.
  destruct (update_parameter_strict_improvement store_voltage "task1" "voltage" (PyStr "208V")
              (6 # 10) TEXT_OCR "photo1" H) as [H1 [_ [H3 _]]].
  assert (Hr : fst (fst (update_parameter store_voltage "task1" "voltage" (PyStr "208V") (6 # 10)
                           TEXT_OCR "photo1")) = false) by reflexivity.
  split; [exact H|]. split; [exact Hr | exact (H3 Hr)].
Defined.

(** ** Review flag of a resolved circuit *)

Lemma get_resolved_circuit_observations st task_id cn :
  observations (snd (get_resolved_circuit st task_id cn)) = observations st.
Proof.
  unfold get_resolved_circuit.
  destruct (observations st !! task_id) as [per|]; [|reflexivity].
  destruct (per !! cn); [|reflexivity].
  destruct (resolved_cache st !! task_id ≫= lookup cn); reflexivity.
Qed.

Lemma get_resolved_circuit_cache st task_id cn task2 c2 rc :
  resolved_cache (snd (get_resolved_circuit st task_id cn)) !! task2 ≫= lookup c2 = Some rc ->
  resolved_cache st !! task2 ≫= lookup c2 = Some rc \/ exists obs, rc = resolve_circuit c2 obs.
Proof.
  unfold get_resolved_circuit.
  destruct (observations st !! task_id) as [per|]; [|auto].
  destruct (per !! cn) as [obs|]; [|auto].
  destruct (resolved_cache st !! task_id ≫= lookup cn) eqn:Ec; [auto|]. simpl.
  destruct (decide (task2 = task_id)) as [->|Ht].
  - rewrite lookup_insert_eq. simpl.
    destruct (decide (c2 = cn)) as [->|Hc].
    + rewrite lookup_insert_eq. intros [= <-]. right. exists obs. reflexivity.
    + rewrite lookup_insert_ne by congruence. intro H. left.
      destruct (resolved_cache st !! task_id); simpl in *; [exact H|].
      rewrite lookup_empty in H. discriminate H.
  - rewrite lookup_insert_ne by congruence. auto.
Qed.

Lemma reachable_cache_wf st : reachable st -> cache_wf st.
Proof.
  induction 1 as [|st task_id o _ IH|st task_id cn _ IH]; intros task2 c2 rc H.
  - unfold empty_state in H. simpl in H. rewrite lookup_empty in H. discriminate H.
  - rewrite add_observation_cache in H. case_decide; [discriminate H|]. exact (IH _ _ _ H).
  - destruct (get_resolved_circuit_cache _ _ _ _ _ _ H) as [H'|H']; [exact (IH _ _ _ H')|exact H'].
Qed.

Lemma get_resolved_circuit_resolution st task_id cn rc :
  cache_wf st -> fst (get_resolved_circuit st task_id cn) = Some rc ->
  exists obs, rc = resolve_circuit cn obs.
Proof.
  intros Hwf. rewrite get_resolved_circuit_fst.
  destruct (observations st !! task_id ≫= lookup cn) as [obs|]; [|discriminate].
  destruct (resolved_cache st !! task_id ≫= lookup cn) as [rc'|] eqn:Ec.
  - intros [= <-]. exact (Hwf _ _ _ Ec).
  - intros [= <-]. exists obs. reflexivity.
Qed.

Lemma resolve_circuit_needs_review cn obs :
  let rc := resolve_circuit cn obs in
  rc_needs_review rc =
    rf_has_conflict (rc_description rc) || rf_has_conflict (rc_breaker_amps rc) ||
    rf_has_conflict (rc_poles rc) || rf_has_conflict (rc_load_type rc).
Proof.
  cbn zeta. unfold resolve_circuit. cbn [rc_needs_review rc_description rc_breaker_amps
    rc_poles rc_load_type existsb].
  rewrite orb_false_r, !orb_assoc. reflexivity.
Qed.

Definition obs_load (l : Q) (src : string) : CircuitObservation :=
  {| circuit_num := 5; source_id := src; method := MANUAL;
     description := None; description_confidence := 8 # 10;
     breaker_amps := None; amps_confidence := 8 # 10;
     poles := None; poles_confidence := 8 # 10;
     load_amps := Some l; load_confidence := 8 # 10;
     load_type := None; load_type_confidence := 8 # 10 |}.

(** Two manual observations of circuit 5 reading load currents of 10 A and 20 A. *)
Definition state_load_conflict : AggState :=
  add_observation (add_observation empty_state "task1" (obs_load 10 "photo1"))
    "task1" (obs_load 20 "photo2").

(** Claim C8, counterexample: the resolved [load_amps] field of circuit 5
    has a conflict, yet [needs_review] is false. *)
Lemma get_resolved_circuit_load_conflict_not_flagged :
  option_map (fun rc => (rf_has_conflict (rc_load_amps rc), rc_needs_review rc))
    (fst (get_resolved_circuit state_load_conflict "task1" 5)) = Some (true, false).
Proof. vm_compute. reflexivity. Qed.

(** Claim C8 (corrected).  For every [ResolvedCircuit] returned by
    [get_resolved_circuit] in a reachable state, [needs_review] is true
    exactly when one of the four fields description, breaker_amps, poles
    or load_type has a conflict; [load_amps] does not take part. *)
Theorem get_resolved_circuit_needs_review (st : AggState) (task_id : string) (cn : Z)
  (rc : ResolvedCircuit) :
  reachable st -> fst (get_resolved_circuit st task_id cn) = Some rc ->
  (rc_needs_review rc = true <->
   rf_has_conflict (rc_description rc) = true \/ rf_has_conflict (rc_breaker_amps rc) = true \/
   rf_has_conflict (rc_poles rc) = true \/ rf_has_conflict (rc_load_type rc) = true).
Proof.
  intros Hr Hg.
  destruct (get_resolved_circuit_resolution st task_id cn rc (reachable_cache_wf st Hr) Hg)
    as [obs ->].
  rewrite resolve_circuit_needs_review, !orb_true_iff. tauto.
Qed.

Lemma get_resolved_circuit_needs_review_witness :
  reachable state_load_conflict /\
  fst (get_resolved_circuit state_load_conflict "task1" 5)
    = Some (resolve_circuit 5 [obs_load 10 "photo1"; obs_load 20 "photo2"]) /\
  (rc_needs_review (resolve_circuit 5 [obs_load 10 "photo1"; obs_load 20 "photo2"]) = true <->
   rf_has_conflict (rc_description (resolve_circuit 5 [obs_load 10 "photo1"; obs_load 20 "photo2"])) = true \/
   rf_has_conflict (rc_breaker_amps (resolve_circuit 5 [obs_load 10 "photo1"; obs_load 20 "photo2"])) = true \/
   rf_has_conflict (rc_poles (resolve_circuit 5 [obs_load 10 "photo1"; obs_load 20 "photo2"])) = true \/
   rf_has_conflict (rc_load_type (resolve_circuit 5 [obs_load 10 "photo1"; obs_load 20 "photo2"])) = true).
Proof.
  assert (Hr : reachable state_load_conflict) by (do 2 apply reach_add; apply reach_empty).
  assert (Hg : fst (get_resolved_circuit state_load_conflict "task1" 5)
               = Some (resolve_circuit 5 [obs_load 10 "photo1"; obs_load 20 "photo2"]))
    by reflexivity.
  split; [exact Hr|]. split; [exact Hg|].
  exact (get_resolved_circuit_needs_review state_load_conflict "task1" 5 _ Hr Hg).
Defined.

(** ** Defaults of [to_dict] *)

Lemma digit_of_mod n :
  0 <= n ->
  let d := ascii_of_nat (48 + Z.to_nat (n mod 10)) in
  is_digit d = true /\ digit_val d = n mod 10 /\ (d = "0"%char -> n mod 10 = 0).
Proof.
  intros Hn d.
  assert (Hm : 0 <= n mod 10 < 10) by (apply Z.mod_pos_bound; lia).
  assert (Hd : nat_of_ascii d = (48 + Z.to_nat (n mod 10))%nat)
    by (apply nat_ascii_embedding; lia).
  unfold is_digit, digit_val. rewrite Hd. split; [|split].
  - apply andb_true_iff. split; apply Nat.leb_le; lia.
  - replace (48 + Z.to_nat (n mod 10) - 48)%nat with (Z.to_nat (n mod 10)) by lia.
    apply Z2Nat.id. lia.
  - intro H0. rewrite H0 in Hd. change (nat_of_ascii "0") with 48%nat in Hd. lia.
Qed.

Lemma dec_value_app acc l1 l2 : dec_value acc (l1 ++ l2) = dec_value (dec_value acc l1) l2.
Proof. revert acc. induction l1 as [|c l1 IH]; intro acc; simpl; [reflexivity|apply IH]. Qed.

Lemma dec_aux_spec fuel : forall n acc,
  (0 < fuel)%nat -> 0 <= n < 10 ^ Z.of_nat fuel ->
  exists c ds, list_ascii_of_string (Py.dec_aux fuel n acc) = c :: ds ++ list_ascii_of_string acc /\
    List.Forall (fun d => is_digit d = true) (c :: ds) /\ dec_value 0 (c :: ds) = n /\
    (c = "0"%char -> n = 0 /\ ds = []).
Proof.
  induction fuel as [|f IH]; intros n acc Hf0 Hn.
  - lia.
  - rewrite Nat2Z.inj_succ, Z.pow_succ_r in Hn by lia.
    destruct (digit_of_mod n ltac:(lia)) as (Hdig & Hval & Hz).
    assert (Hdiv := Z.div_mod n 10 ltac:(lia)).
    cbn [Py.dec_aux]. set (d := ascii_of_nat (48 + Z.to_nat (n mod 10))) in *.
    destruct (n / 10 =? 0) eqn:Eq.
    + apply Z.eqb_eq in Eq.
      eexists _, []. simpl. split; [reflexivity|]. split; [constructor; auto|].
      split; [rewrite Hval; lia|]. intro H. specialize (Hz H). split; [lia|reflexivity].
    + apply Z.eqb_neq in Eq.
      assert (Hq : 0 <= n / 10 < 10 ^ Z.of_nat f).
      { split; [apply Z.div_pos; lia|]. apply Z.div_lt_upper_bound; lia. }
      assert (Hf1 : (0 < f)%nat).
      { destruct f; [|lia]. assert (0 <= n / 10) by (apply Z.div_pos; lia). simpl in Hq. lia. }
      destruct (IH (n / 10) (String d acc) Hf1 Hq) as (c & ds & Hl & Hf & Hv & H0).
      exists c, (ds ++ [d]).
      split; [rewrite Hl; simpl; rewrite <- app_assoc; reflexivity|].
      change (c :: ds ++ [d]) with ((c :: ds) ++ [d]).
      split; [apply List.Forall_app; split; [exact Hf|constructor; auto]|].
      split; [rewrite dec_value_app, Hv; simpl; rewrite Hval; lia|].
      intro Hc. destruct (H0 Hc). lia.
Qed.

Lemma size_nat_pos p : (0 < Pos.size_nat p)%nat.
Proof. destruct p; simpl; lia. Qed.

Lemma size_nat_bound z : 0 <= z -> z < 10 ^ Z.of_nat (Pos.size_nat (Z.to_pos z)).
Proof.
  intro Hz. destruct z as [|p|p]; [reflexivity| |lia]. simpl Z.to_pos.
  assert (H2 : Z.pos p < 2 ^ Z.of_nat (Pos.size_nat p)).
  { clear Hz. induction p as [p IH|p IH|]; [| |reflexivity]; cbn [Pos.size_nat];
      rewrite Nat2Z.inj_succ, Z.pow_succ_r by lia; [rewrite Pos2Z.inj_xI | rewrite Pos2Z.inj_xO];
      lia. }
  assert (H10 : 2 ^ Z.of_nat (Pos.size_nat p) <= 10 ^ Z.of_nat (Pos.size_nat p))
    by (apply Z.pow_le_mono_l; lia).
  lia.
Qed.

(** Claim C9.  [to_dict] reports an absent poles value as 1, an absent
    breaker_amps or load_amps as 0 and an absent description or load_type
    as the empty string; the number is [str(circuit_num)]: an optional
    sign "-" (exactly when the number is negative) followed by a non-empty
    string of decimal digits, without a leading zero unless it is "0",
    whose value is the absolute value of the number. *)
Theorem to_dict_defaults (rc : ResolvedCircuit) :
  (rf_value (rc_poles rc) = None -> d_poles (to_dict rc) = 1) /\
  (rf_value (rc_breaker_amps rc) = None -> d_breaker_amps (to_dict rc) = 0) /\
  (rf_value (rc_load_amps rc) = None -> d_load_amps (to_dict rc) = 0%Q) /\
  (rf_value (rc_description rc) = None -> d_description (to_dict rc) = EmptyString) /\
  (rf_value (rc_load_type rc) = None -> d_load_type (to_dict rc) = EmptyString) /\
  d_number (to_dict rc) = Py.str_int (rc_circuit_num rc) /\
  exists sign c ds,
    list_ascii_of_string (d_number (to_dict rc)) = sign ++ c :: ds /\
    sign = (if rc_circuit_num rc <? 0 then ["-"%char] else []) /\
    List.Forall (fun d => is_digit d = true) (c :: ds) /\
    dec_value 0 (c :: ds) = Z.abs (rc_circuit_num rc) /\
    (c = "0"%char -> ds = []).
Proof.
  unfold to_dict; cbn [d_poles d_breaker_amps d_load_amps d_description d_load_type d_number].
  split; [intros ->; reflexivity|]. split; [intros ->; reflexivity|].
  split; [intros ->; reflexivity|]. split; [intros ->; reflexivity|].
  split; [intros ->; reflexivity|]. split; [reflexivity|].
  set (z := rc_circuit_num rc). unfold Py.str_int.
  destruct (z <? 0) eqn:Ez.
  - apply Z.ltb_lt in Ez.
    destruct (dec_aux_spec (Pos.size_nat (Z.to_pos (- z))) (- z) EmptyString (size_nat_pos _)
                ltac:(split; [lia | apply size_nat_bound; lia])) as (c & ds & Hl & Hf & Hv & H0).
    exists ["-"%char], c, ds. split.
    { cbn [list_ascii_of_string app]. rewrite Hl. cbn [list_ascii_of_string].
      rewrite app_nil_r. reflexivity. } split; [reflexivity|]. split; [exact Hf|].
    split; [rewrite Hv; lia|]. intro Hc. apply (H0 Hc).
  - apply Z.ltb_ge in Ez.
    destruct (dec_aux_spec (Pos.size_nat (Z.to_pos z)) z EmptyString (size_nat_pos _)
                ltac:(split; [lia | apply size_nat_bound; lia])) as (c & ds & Hl & Hf & Hv & H0).
    exists [], c, ds. split.
    { cbn [list_ascii_of_string app]. rewrite Hl. cbn [list_ascii_of_string].
      rewrite app_nil_r. reflexivity. } split; [reflexivity|]. split; [exact Hf|].
    split; [rewrite Hv; lia|]. intro Hc. apply (H0 Hc).
Qed.

(** ** Confidences of the ingested observations *)

Lemma get_resolved_circuit_observations_eq st task_id cn r st' :
  get_resolved_circuit st task_id cn = (r, st') -> observations st' = observations st.
Proof.
  intro H. pose proof (get_resolved_circuit_observations st task_id cn) as Ho.
  rewrite H in Ho. exact Ho.
Qed.

Ltac destruct_resolution :=
  lazymatch goal with
  | |- context [get_resolved_circuit ?s ?t ?c] =>
      let E := fresh "Eg" in destruct (get_resolved_circuit s t c) as [? ?] eqn:E
  end.

(** Claim C10.  When [add_observations_from_ocr_result] ingests a circuit
    entry with a positive number and at least one usable field, it appends
    to that circuit one observation whose description confidence is the
    entry's [confidence] (0.8 when absent), whose breaker_amps confidence
    is 0.8, whose poles confidence is 0.9 with [visual_pole_detection] and
    0.7 without, and whose load_type confidence is 0.8. *)
Theorem ingest_circuit_confidences (task_id source : string) (meth : ExtractionMethod)
  (st : AggState) (ns : list string) (circuit : OcrCircuit) (cn : Z) :
  (match oc_number circuit with None => Ok 0 | Some v => py_int v end) = Ok cn ->
  0 < cn ->
  (coerce_desc (oc_description circuit), coerce_int (oc_breaker_amps circuit),
   coerce_int (oc_breaker_poles circuit), coerce_load_type (oc_load_type circuit))
    <> (None, None, None, None) ->
  exists st' ns' o,
    ingest_circuit task_id source meth (st, ns) circuit = Ok (st', ns') /\
    observations st' !! task_id ≫= lookup cn =
      Some (default [] (observations st !! task_id ≫= lookup cn) ++ [o]) /\
    circuit_num o = cn /\
    description o = coerce_desc (oc_description circuit) /\
    breaker_amps o = coerce_int (oc_breaker_amps circuit) /\
    poles o = coerce_int (oc_breaker_poles circuit) /\
    load_type o = coerce_load_type (oc_load_type circuit) /\
    description_confidence o = default (8 # 10) (oc_confidence circuit) /\
    amps_confidence o = 8 # 10 /\
    poles_confidence o = (if oc_visual_pole_detection circuit then 9 # 10 else 7 # 10) /\
    load_type_confidence o = 8 # 10.
Proof.
  intros Hn Hpos Hne. unfold ingest_circuit. rewrite Hn. cbn [pbind].
  destruct (cn <=? 0) eqn:Ec; [apply Z.leb_le in Ec; lia|].
  destruct (coerce_desc (oc_description circuit)) eqn:E1,
    (coerce_int (oc_breaker_amps circuit)) eqn:E2,
    (coerce_int (oc_breaker_poles circuit)) eqn:E3,
    (coerce_load_type (oc_load_type circuit)) eqn:E4;
    try (exfalso; apply Hne; reflexivity);
    destruct_resolution; destruct_resolution.
  all: lazymatch goal with
    | Eg0 : get_resolved_circuit (add_observation _ ?t ?o) ?t ?c = (?nr, ?st3),
      Eg : get_resolved_circuit ?s ?t ?c = _ |- _ =>
        assert (Hobs : observations st3 !! t ≫= lookup c =
                       Some (default [] (observations s !! t ≫= lookup c) ++ [o]));
        [ rewrite (get_resolved_circuit_observations_eq _ _ _ _ _ Eg0),
            add_observation_observations; cbn [circuit_num];
          rewrite decide_True by reflexivity;
          rewrite (get_resolved_circuit_observations_eq _ _ _ _ _ Eg); reflexivity
        | destruct nr as [nr|]; [destruct (notification _ _ _ nr) |];
          exists st3; eexists; exists o; (split; [reflexivity|]); (split; [exact Hobs|]);
          repeat split ]
    end.
Qed.

(** An entry for circuit 7 read with confidence 0.95 and visual pole detection. *)
Definition entry_visual : OcrCircuit :=
  {| oc_number := Some (PyStr "7"); oc_description := Some "KITCHEN";
     oc_breaker_amps := Some (PyStr "20"); oc_breaker_poles := Some (PyInt 2);
     oc_load_type := Some "receptacle"; oc_confidence := Some (95 # 100);
     oc_visual_pole_detection := true |}.

Lemma ingest_circuit_confidences_witness :
  (match oc_number entry_visual with None => Ok 0 | Some v => py_int v end) = Ok 7 /\
  0 < 7 /\
  (coerce_desc (oc_description entry_visual), coerce_int (oc_breaker_amps entry_visual),
   coerce_int (oc_breaker_poles entry_visual), coerce_load_type (oc_load_type entry_visual))
    <> (None, None, None, None) /\
  exists st' ns' o,
    ingest_circuit "task1" "photo1" TEXT_OCR (empty_state, []) entry_visual = Ok (st', ns') /\
    observations st' !! "task1"%string ≫= lookup 7 =
      Some (default [] (observations empty_state !! "task1"%string ≫= lookup 7) ++ [o]) /\
    circuit_num o = 7 /\
    description o = coerce_desc (oc_description entry_visual) /\
    breaker_amps o = coerce_int (oc_breaker_amps entry_visual) /\
    poles o = coerce_int (oc_breaker_poles entry_visual) /\
    load_type o = coerce_load_type (oc_load_type entry_visual) /\
    description_confidence o = default (8 # 10) (oc_confidence entry_visual) /\
    amps_confidence o = 8 # 10 /\
    poles_confidence o = (if oc_visual_pole_detection entry_visual then 9 # 10 else 7 # 10) /\
    load_type_confidence o = 8 # 10.
Proof.
  assert (Hn : (match oc_number entry_visual with None => Ok 0 | Some v => py_int v end) = Ok 7)
    by reflexivity.
  assert (Hp : 0 < 7) by lia.
  assert (Hne : (coerce_desc (oc_description entry_visual), coerce_int (oc_breaker_amps entry_visual),
     coerce_int (oc_breaker_poles entry_visual), coerce_load_type (oc_load_type entry_visual))
     <> (None, None, None, None)) by discriminate.
  split; [exact Hn|]. split; [exact Hp|]. split; [exact Hne|].
  exact (ingest_circuit_confidences "task1" "photo1" TEXT_OCR empty_state [] entry_visual 7 Hn Hp Hne).
Defined.

(** * Further properties of the service *)

(** ** Shape of one ingestion step *)

Lemma ingest_circuit_cases task_id source meth st ns circuit st' ns' :
  ingest_circuit task_id source meth (st, ns) circuit = Ok (st', ns') ->
  (st' = st /\ ns' = ns) \/
  exists cn o existing st1 nr,
    get_resolved_circuit st task_id cn = (existing, st1) /\
    get_resolved_circuit (add_observation st1 task_id o) task_id cn = (nr, st') /\
    circuit_num o = cn /\ load_type o = coerce_load_type (oc_load_type circuit) /\
    exists extra, ns' = ns ++ extra /\ (length extra <= 1)%nat.
Proof.
  unfold ingest_circuit.
  destruct (match oc_number circuit with None => Ok 0 | Some v => py_int v end)
    as [cn|e]; cbn [pbind]; [|discriminate].
  destruct (cn <=? 0); [intros [= -> ->]; left; auto|].
  destruct (coerce_desc (oc_description circuit)),
    (coerce_int (oc_breaker_amps circuit)),
    (coerce_int (oc_breaker_poles circuit)),
    (coerce_load_type (oc_load_type circuit)) eqn:E4;
    try (intros [= -> ->]; left; auto; fail);
    destruct_resolution; destruct_resolution.
  all: lazymatch goal with
    | Eg0 : get_resolved_circuit (add_observation _ _ ?o) _ _ = (?nr, _),
      Eg : get_resolved_circuit _ _ _ = (_, _) |- _ =>
        destruct nr as [nr|]; [destruct (notification _ _ _ nr) |];
        intros [= <- <-]; right; do 5 eexists;
        (split; [exact Eg|]); (split; [exact Eg0|]); (split; [reflexivity|]);
        (split; [reflexivity|])
    end.
  all: first [ exists []; rewrite app_nil_r; split; [reflexivity|simpl; lia]
             | eexists [_]; split; [reflexivity|simpl; lia] ].
Qed.

(** ** Properties kept by every step of the service *)

Section Preserved.
Variable P : AggState -> Prop.
Hypothesis P_get : forall st task_id cn, P st -> P (snd (get_resolved_circuit st task_id cn)).

Lemma P_get_eq st task_id cn r st' :
  get_resolved_circuit st task_id cn = (r, st') -> P st -> P st'.
Proof. intros E H. pose proof (P_get st task_id cn H) as H'. rewrite E in H'. exact H'. Qed.

Lemma resolve_circuits_in_P task_id keys : forall acc,
  P (snd acc) -> P (snd (resolve_circuits_in task_id keys acc)).
Proof.
  unfold resolve_circuits_in.
  induction keys as [|cn keys IH]; intros [result st] H; simpl; [exact H|].
  destruct (get_resolved_circuit st task_id cn) as [[rc|] st'] eqn:E; apply IH;
    exact (P_get_eq _ _ _ _ _ E H).
Qed.

Lemma get_all_resolved_circuits_P st task_id :
  P st -> P (snd (get_all_resolved_circuits st task_id)).
Proof.
  intro H. unfold get_all_resolved_circuits.
  destruct (observations st !! task_id); [|exact H].
  apply resolve_circuits_in_P. exact H.
Qed.

Lemma get_aggregation_summary_P st task_id :
  P st -> P (snd (get_aggregation_summary st task_id)).
Proof.
  intro H. unfold get_aggregation_summary.
  destruct (observations st !! task_id); [|exact H].
  pose proof (get_all_resolved_circuits_P st task_id H) as H'.
  destruct (get_all_resolved_circuits st task_id) as [all st'].
  destruct (fold_left _ _ _) as [[? ?] ?]. exact H'.
Qed.

Hypothesis P_add : forall st task_id o, P st -> P (add_observation st task_id o).

Lemma ingest_circuit_P task_id source meth st ns circuit st' ns' :
  ingest_circuit task_id source meth (st, ns) circuit = Ok (st', ns') -> P st -> P st'.
Proof.
  intros E H. destruct (ingest_circuit_cases _ _ _ _ _ _ _ _ E)
    as [[-> _]|(cn & o & ex & st1 & nr & E1 & E2 & _)]; [exact H|].
  apply (P_get_eq _ _ _ _ _ E2), P_add, (P_get_eq _ _ _ _ _ E1), H.
Qed.

Lemma fold_ingest_P task_id source meth circuits : forall st ns st' ns',
  fold_py (ingest_circuit task_id source meth) circuits (st, ns) = Ok (st', ns') ->
  P st -> P st'.
Proof.
  induction circuits as [|c circuits IH]; intros st ns st' ns' E H; cbn [fold_py] in E.
  - inversion E; subst. exact H.
  - destruct (ingest_circuit task_id source meth (st, ns) c) as [[st1 ns1]|e] eqn:E1;
      cbn [pbind] in E; [|discriminate].
    exact (IH _ _ _ _ E (ingest_circuit_P _ _ _ _ _ _ _ _ E1 H)).
Qed.

Lemma breaker_observations_P task_id source st b :
  P st -> P (breaker_observations task_id source st b).
Proof.
  unfold breaker_observations. generalize st. induction (vb_circuits b) as [|cn l IH];
    intros st0 H; simpl; [exact H|]. apply IH, P_add, H.
Qed.

Lemma add_observations_from_ocr_result_P st task_id source circuits meth vb ns st' :
  add_observations_from_ocr_result st task_id source circuits meth vb = Ok (ns, st') ->
  P st -> P st'.
Proof.
  unfold add_observations_from_ocr_result. intros E H.
  destruct (fold_py (ingest_circuit task_id source meth) circuits (st, [])) as [[st1 ns1]|e]
    eqn:E1; simpl in E; [|discriminate].
  injection E as _ <-. pose proof (fold_ingest_P _ _ _ _ _ _ _ _ E1 H) as H1.
  destruct vb as [vb|]; [|exact H1]. destruct (ai_vision_success vb); [|exact H1].
  generalize st1 H1. induction (breakers vb) as [|b bs IH]; intros s Hs; simpl; [exact Hs|].
  apply IH, breaker_observations_P, Hs.
Qed.
End Preserved.

(** ** Where the resolved values come from *)

Section Origin.
Context {V K : Type}.
Variable normalize : V -> K.
Variable key_eqb : K -> K -> bool.

Definition obs_of_entry (e : @entry V) : V * Q * string * ExtractionMethod :=
  let '(c, s, m, v) := e in (v, c, s, m).

Definition group_entries (g : K * @entry V * list (@entry V)) : list (@entry V) :=
  let '(_, e0, rest) := g in e0 :: rest.

Lemma group_insert_entries k (e : @entry V) gs g x :
  In g (group_insert key_eqb k e gs) -> In x (group_entries g) ->
  x = e \/ exists g', In g' gs /\ In x (group_entries g').
Proof.
  revert g. induction gs as [|[[k' e0] rest] gs IH]; intros g Hg Hx; simpl in Hg.
  - destruct Hg as [<-|[]]. simpl in Hx. destruct Hx as [<-|[]]. left; reflexivity.
  - destruct (key_eqb k k').
    + destruct Hg as [<-|Hg].
      * simpl in Hx. destruct Hx as [<-|Hx].
        { right. exists (k', e0, rest). split; [left; reflexivity | left; reflexivity]. }
        apply in_app_or in Hx. destruct Hx as [Hx|[<-|[]]]; [|left; reflexivity].
        right. exists (k', e0, rest). split; [left; reflexivity | right; exact Hx].
      * right. exists g. split; [right; exact Hg | exact Hx].
    + destruct Hg as [<-|Hg].
      * right. exists (k', e0, rest). split; [left; reflexivity | exact Hx].
      * destruct (IH g Hg Hx) as [H|(g' & Hg' & Hx')]; [left; exact H|].
        right. exists g'. split; [right; exact Hg' | exact Hx'].
Qed.

Lemma value_groups_entries obs g x :
  In g (value_groups normalize key_eqb obs) -> In x (group_entries g) ->
  In (obs_of_entry x) obs.
Proof.
  revert g x. induction obs as [|[[[v c] s] m] obs IH] using rev_ind; intros g x Hg Hx.
  - destruct Hg.
  - unfold value_groups in Hg. rewrite fold_left_app in Hg. simpl in Hg.
    destruct (group_insert_entries _ _ _ _ _ Hg Hx) as [->|(g' & Hg' & Hx')].
    + apply in_or_app. right. left. reflexivity.
    + apply in_or_app. left. exact (IH g' x Hg' Hx').
Qed.

Lemma group_insert_not_nil k (e : @entry V) gs : group_insert key_eqb k e gs <> [].
Proof. destruct gs as [|[[k' e0] rest] gs]; simpl; [|destruct (key_eqb k k')]; discriminate. Qed.

Lemma value_groups_not_nil obs : obs <> [] -> value_groups normalize key_eqb obs <> [].
Proof.
  destruct obs as [|o obs] using rev_ind; [contradiction|]. intros _.
  unfold value_groups. rewrite fold_left_app. destruct o as [[[v c] s] m]. simpl.
  apply group_insert_not_nil.
Qed.

Lemma group_sources_in (l : list (@entry V)) s :
  In s (group_sources l) -> exists x, In x l /\ e_source x = s.
Proof.
  unfold group_sources.
  enough (H : forall acc, In s (fold_left (fun ss e => add_source ss (e_source e)) l acc) ->
                In s acc \/ exists x, In x l /\ e_source x = s).
  { intro Hs. destruct (H [] Hs) as [[]|H']; exact H'. }
  induction l as [|e l IH]; intros acc Hs; simpl in Hs; [left; exact Hs|].
  destruct (IH _ Hs) as [Ha|(x & Hx & Hxs)].
  - unfold add_source in Ha. destruct (existsb (String.eqb (e_source e)) acc); [left; exact Ha|].
    apply in_app_or in Ha. destruct Ha as [Ha|[<-|[]]]; [left; exact Ha|].
    right. exists e. split; [left|]; reflexivity.
  - right. exists x. split; [right; exact Hx | exact Hxs].
Qed.

Lemma fuse_product_le_1 (l : list (@entry V)) :
  Forall (fun e => 0 <= e_conf e)%Q l -> (fuse_product l <= 1)%Q.
Proof.
  unfold fuse_product.
  enough (H : forall p, (0 < p <= 1)%Q -> Forall (fun e => 0 <= e_conf e)%Q l ->
     (fold_left (fun p e =>
        (p * (1 - Py.min (e_conf e) (METHOD_CONFIDENCE_WEIGHTS (e_method e))))%Q) l p <= 1)%Q).
  { apply H. split; [reflexivity | apply Qle_refl]. }
  induction l as [|e l IH]; intros p Hp HF; simpl; [apply Hp|].
  inversion HF as [|? ? He HF']; subst. apply IH; [|exact HF'].
  pose proof (one_minus_eff_pos (e_conf e) (e_method e)) as H1.
  assert (H2 : (0 <= Py.min (e_conf e) (METHOD_CONFIDENCE_WEIGHTS (e_method e)))%Q).
  { apply min_glb; [exact He | apply Qlt_le_weak, weight_pos]. }
  destruct Hp as [Hp0 Hp1]. split.
  - apply Qmult_lt_0_compat; assumption.
  - set (f := (1 - Py.min (e_conf e) (METHOD_CONFIDENCE_WEIGHTS (e_method e)))%Q) in *.
    assert (Hf : (f <= 1)%Q) by (unfold f; lra).
    apply Qle_trans with (1 * 1)%Q; [|unfold Qle; simpl; lia].
    apply Qmult_le_compat_nonneg; split; lra.
Qed.

Lemma resolve_field_facts (obs : list (V * Q * string * ExtractionMethod)) :
  let r := resolve_field normalize key_eqb obs in
  (obs <> [] -> rf_value r <> None) /\
  (forall v, rf_value r = Some v -> exists c s m, In (v, c, s, m) obs) /\
  (forall s, In s (rf_sources r) -> exists v c m, In (v, c, s, m) obs) /\
  (forall v q, In (v, q) (rf_competing_values r) -> exists c s m, In (v, c, s, m) obs) /\
  (rf_confidence r <= 98 # 100)%Q /\
  (Forall (fun o => let '(_, c, _, _) := o in 0 <= c)%Q obs -> (0 <= rf_confidence r)%Q).
Proof.
  cbn zeta. unfold resolve_field.
  destruct obs as [|o0 obs0] eqn:Eo.
  { cbn. split; [contradiction|]. split; [discriminate|]. split; [intros _ []|].
    split; [intros _ _ []|]. split; [|intros _; apply Qle_refl]. unfold Qle; simpl; lia. }
  rewrite <- Eo.
  assert (Hne : value_groups normalize key_eqb obs <> []) by (apply value_groups_not_nil; congruence).
  pose proof (sort_desc_perm (map value_confidence (value_groups normalize key_eqb obs))) as Hp.
  destruct (sort_desc (map value_confidence (value_groups normalize key_eqb obs)))
    as [|[[bv bc] bs] rest] eqn:Es.
  { apply Permutation_nil in Hp. destruct (value_groups normalize key_eqb obs); [|discriminate].
    contradiction. }
  (* every element of the sorted list is the value_confidence of a group *)
  assert (Hin : forall y, In y ((bv, bc, bs) :: rest) ->
            exists g, In g (value_groups normalize key_eqb obs) /\ y = value_confidence g).
  { intros y Hy. apply (Permutation_in _ Hp) in Hy. apply in_map_iff in Hy.
    destruct Hy as (g & <- & Hg). exists g. split; [exact Hg | reflexivity]. }
  assert (Hgv : forall g, In g (value_groups normalize key_eqb obs) ->
            exists c s m, In (let '(v, _, _) := value_confidence g in v, c, s, m) obs).
  { intros [[k e0] rest0] Hg. simpl.
    pose proof (value_groups_entries obs _ e0 Hg ltac:(left; reflexivity)) as H.
    destruct e0 as [[[c s] m] v]. simpl in H |- *. eauto. }
  destruct (Hin (bv, bc, bs) ltac:(left; reflexivity)) as ([[k e0] rest0] & Hg & Hb).
  simpl in Hb. injection Hb as Hbv Hbc Hbs.
  rewrite conflict_scan_spec. cbn [rf_value rf_sources rf_competing_values rf_confidence].
  split; [discriminate|]. split.
  { intros v [= <-]. destruct (Hgv _ Hg) as (c & s & m & H). simpl in H. rewrite Hbv. eauto. }
  split.
  { intros s Hs. rewrite Hbs in Hs. apply group_sources_in in Hs.
    destruct Hs as (x & Hx & <-).
    pose proof (value_groups_entries obs _ x Hg Hx) as H.
    destruct x as [[[c s] m] v]. simpl in H |- *. eauto. }
  split.
  { intros v q Hvq. apply in_map_iff in Hvq. destruct Hvq as (y & Hy & Hyr).
    apply filter_In in Hyr. destruct Hyr as [Hyr _].
    destruct (Hin y ltac:(right; exact Hyr)) as (g & Hg' & ->).
    destruct (Hgv g Hg') as (c & s & m & H).
    destruct g as [[k' e'] rest']. simpl in Hy, H. injection Hy as <- _. eauto. }
  assert (Hc : bc = combined_conf (e0 :: rest0)) by exact Hbc.
  split.
  { apply Qle_trans with (Py.round (98 # 100) 3).
    - apply round_mono. rewrite Hc. apply min_le_l.
    - vm_compute. discriminate. }
  intro HF.
  apply Qle_trans with (Py.round 0 3); [vm_compute; discriminate|].
  apply round_mono. rewrite Hc. unfold combined_conf.
  apply min_glb; [unfold Qle; simpl; lia|].
  enough (H : (fuse_product (e0 :: rest0) <= 1)%Q) by lra.
  apply fuse_product_le_1. apply List.Forall_forall. intros x Hx.
  pose proof (value_groups_entries obs _ x Hg Hx) as H.
  rewrite List.Forall_forall in HF. specialize (HF _ H).
  destruct x as [[[c s] m] v]. exact HF.
Qed.
End Origin.

(** ** The cache never serves a stale resolution *)

Lemma cache_exact_empty : cache_exact empty_state.
Proof. intros t c rc H. simpl in H. rewrite lookup_empty in H. discriminate H. Qed.

Lemma cache_exact_add st task_id o : cache_exact st -> cache_exact (add_observation st task_id o).
Proof.
  intros H t c rc Hl. rewrite add_observation_cache in Hl.
  rewrite add_observation_observations. case_decide; [discriminate Hl|]. exact (H _ _ _ Hl).
Qed.

Lemma cache_exact_get st task_id cn :
  cache_exact st -> cache_exact (snd (get_resolved_circuit st task_id cn)).
Proof.
  intros H t c rc. unfold get_resolved_circuit.
  destruct (observations st !! task_id) as [per|] eqn:Eo; [|apply H].
  destruct (per !! cn) as [obs|] eqn:Ep; [|apply H].
  destruct (resolved_cache st !! task_id ≫= lookup cn); [apply H|].
  cbn [snd observations resolved_cache].
  destruct (decide (t = task_id)) as [->|Ht].
  - rewrite lookup_insert_eq. cbn [mbind option_bind].
    destruct (decide (c = cn)) as [->|Hc].
    + rewrite lookup_insert_eq. intros [= <-]. exists obs. rewrite Eo. split; [exact Ep|reflexivity].
    + rewrite lookup_insert_ne by congruence. intro Hl. apply H.
      destruct (resolved_cache st !! task_id); cbn [default mbind option_bind] in *; [exact Hl|].
      rewrite lookup_empty in Hl. discriminate Hl.
  - rewrite lookup_insert_ne by congruence. apply H.
Qed.

Lemma cache_exact_clear st task_id : cache_exact st -> cache_exact (clear_task st task_id).
Proof.
  intros H t c rc. unfold clear_task. cbn [observations resolved_cache].
  destruct (decide (t = task_id)) as [->|Ht].
  - rewrite lookup_delete_eq. discriminate.
  - rewrite !lookup_delete_ne by congruence. apply H.
Qed.

Lemma service_reachable_cache_exact st : service_reachable st -> cache_exact st.
Proof.
  induction 1.
  - exact cache_exact_empty.
  - apply cache_exact_add. assumption.
  - eapply add_observations_from_ocr_result_P; [exact cache_exact_get | exact cache_exact_add | eassumption | assumption].
  - apply cache_exact_get. assumption.
  - apply get_all_resolved_circuits_P; [exact cache_exact_get | assumption].
  - apply get_aggregation_summary_P; [exact cache_exact_get | assumption].
  - apply cache_exact_clear. assumption.
Qed.

Lemma get_resolved_circuit_exact st task_id cn :
  cache_exact st ->
  fst (get_resolved_circuit st task_id cn) =
  option_map (resolve_circuit cn) (observations st !! task_id ≫= lookup cn).
Proof.
  intro H. rewrite get_resolved_circuit_fst.
  destruct (observations st !! task_id ≫= lookup cn) as [obs|] eqn:Eo; [|reflexivity].
  destruct (resolved_cache st !! task_id ≫= lookup cn) as [rc|] eqn:Ec; [|reflexivity].
  destruct (H _ _ _ Ec) as (obs' & Eo' & ->). rewrite Eo in Eo'. injection Eo' as ->.
  reflexivity.
Qed.

Lemma resolve_circuits_in_spec task_id keys : forall acc,
  cache_exact (snd acc) ->
  (forall k, In k keys -> observations (snd acc) !! task_id ≫= lookup k <> None) ->
  observations (snd (resolve_circuits_in task_id keys acc)) = observations (snd acc) /\
  forall c, fst (resolve_circuits_in task_id keys acc) !! c =
    if in_dec Z.eq_dec c keys
    then option_map (resolve_circuit c) (observations (snd acc) !! task_id ≫= lookup c)
    else fst acc !! c.
Proof.
  unfold resolve_circuits_in.
  induction keys as [|k keys IH]; intros [result st] Hce Hk; cbn [fold_left fst snd] in *.
  - split; [reflexivity|]. intro c. reflexivity.
  - pose proof (get_resolved_circuit_exact st task_id k Hce) as Hx.
    pose proof (cache_exact_get st task_id k Hce) as Hce'.
    pose proof (get_resolved_circuit_observations st task_id k) as Ho.
    destruct (get_resolved_circuit st task_id k) as [r st'] eqn:E. cbn [fst snd] in *.
    destruct (observations st !! task_id ≫= lookup k) as [obs_k|] eqn:Ek;
      [|exfalso; exact (Hk k (or_introl eq_refl) Ek)].
    cbn [option_map] in Hx. subst r.
    destruct (IH (<[k := resolve_circuit k obs_k]> result, st') Hce') as [IHo IHr].
    { intros k' Hk'. cbn [snd]. rewrite Ho. apply Hk. right. exact Hk'. }
    cbn [snd fst] in IHo, IHr. split; [rewrite IHo; exact Ho|].
    intro c. rewrite IHr, Ho.
    destruct (in_dec Z.eq_dec c keys) as [Hc|Hc];
      destruct (in_dec Z.eq_dec c (k :: keys)) as [Hc'|Hc']; try reflexivity.
    + exfalso. apply Hc'. right. exact Hc.
    + destruct (decide (c = k)) as [->|Hne].
      * rewrite lookup_insert_eq, Ek. reflexivity.
      * exfalso. destruct Hc' as [H|H]; [congruence | contradiction].
    + destruct (decide (c = k)) as [->|Hne].
      * exfalso. apply Hc'. left. reflexivity.
      * rewrite lookup_insert_ne by congruence. reflexivity.
Qed.

Lemma get_all_resolved_circuits_exact st task_id :
  cache_exact st ->
  observations (snd (get_all_resolved_circuits st task_id)) = observations st /\
  forall c, fst (get_all_resolved_circuits st task_id) !! c =
    option_map (resolve_circuit c) (observations st !! task_id ≫= lookup c).
Proof.
  intro Hce. unfold get_all_resolved_circuits.
  destruct (observations st !! task_id) as [per|] eqn:Eo.
  2: { split; [reflexivity|]. intro c. cbn [fst]. rewrite lookup_empty. reflexivity. }
  destruct (resolve_circuits_in_spec task_id (map fst (map_to_list per)) (∅, st) Hce)
    as [Ho Hr].
  { intros k Hk. cbn [snd]. rewrite Eo. cbn [mbind option_bind].
    apply in_map_iff in Hk. destruct Hk as ([k' x] & <- & Hk).
    rewrite <- list_elem_of_In, elem_of_map_to_list in Hk. cbn [fst]. rewrite Hk. discriminate. }
  split; [exact Ho|]. intro c. rewrite Hr. cbn [snd fst]. rewrite Eo. cbn [mbind option_bind].
  destruct (in_dec Z.eq_dec c (map fst (map_to_list per))) as [Hc|Hc]; [reflexivity|].
  rewrite lookup_empty. destruct (per !! c) as [x|] eqn:Ep; [|reflexivity].
  exfalso. apply Hc. apply in_map_iff. exists (c, x). split; [reflexivity|].
  apply list_elem_of_In, elem_of_map_to_list. exact Ep.
Qed.

(** ** Definitions used by the further properties *)

Definition obs_panel (cn : Z) (d : string) (a : Z) (src : string) : CircuitObservation :=
  {| circuit_num := cn; source_id := src; method := TEXT_OCR;
     description := Some d; description_confidence := 9 # 10;
     breaker_amps := Some a; amps_confidence := 8 # 10;
     poles := Some 1; poles_confidence := 9 # 10;
     load_amps := None; load_confidence := 0;
     load_type := None; load_type_confidence := 0 |}.

Definition state_two_photos : AggState :=
  add_observation
    (add_observation
       (add_observation empty_state "task1" (obs_panel 1 "LIGHTS" 20 "photo1"))
       "task1" (obs_panel 1 "LIGHTS" 30 "photo2"))
    "task1" (obs_panel 2 "PUMP" 15 "photo1").

Definition ocr_lights : OcrCircuit :=
  {| oc_number := Some (PyStr "1"); oc_description := Some "LIGHTS";
     oc_breaker_amps := Some (PyStr "20"); oc_breaker_poles := Some (PyInt 1);
     oc_load_type := Some "LTG"; oc_confidence := Some (9 # 10);
     oc_visual_pole_detection := false |}.

Definition ocr_no_number : OcrCircuit :=
  {| oc_number := Some PyNone; oc_description := Some "SPARE";
     oc_breaker_amps := None; oc_breaker_poles := None;
     oc_load_type := None; oc_confidence := None;
     oc_visual_pole_detection := false |}.

Definition ocr_run_lights : PyResult (list string * AggState) :=
  add_observations_from_ocr_result state_two_photos "task1" "photo3" [ocr_lights] TEXT_OCR None.

Definition obs_extends (st0 st : AggState) : Prop :=
  forall t c, default [] (observations st0 !! t ≫= lookup c) `prefix_of`
              default [] (observations st !! t ≫= lookup c).

Definition other_tasks_kept (task_id : string) (st0 st : AggState) : Prop :=
  forall t, t <> task_id -> observations st !! t = observations st0 !! t.

Definition breaker_obs_ok (source : string) (b : VisualBreaker) (cn : Z) (o : CircuitObservation) : Prop :=
  circuit_num o = cn /\ source_id o = source /\ method o = AI_VISION /\
  breaker_amps o = vb_amps b /\ poles o = vb_poles b /\
  (load_type o = None \/ load_type o = Some ""%string \/
   exists t, load_type o = Some t /\ In t LOAD_TYPES).

Definition obs_nonempty (st : AggState) : Prop :=
  forall t c obs, observations st !! t ≫= lookup c = Some obs -> obs <> [].
(** ** Confidences and sources of a resolved circuit *)

Lemma sum_le_bound (b : Q) (l : list Q) : forall acc,
  Forall (fun x => x <= b)%Q l ->
  (fold_left Qplus l acc <= acc + b * inject_Z (Z.of_nat (length l)))%Q.
Proof.
  induction l as [|x l IH]; intros acc HF; simpl.
  - change (inject_Z (Z.of_nat 0)) with 0%Q. lra.
  - inversion HF as [|? ? Hx HF']; subst.
    apply Qle_trans with (acc + x + b * inject_Z (Z.of_nat (length l)))%Q; [apply IH, HF'|].
    rewrite Nat2Z.inj_succ, <- Z.add_1_r, inject_Z_plus. change (inject_Z 1) with 1%Q. lra.
Qed.

Lemma mean_le_bound (b : Q) (l : list Q) :
  l <> [] -> Forall (fun x => x <= b)%Q l ->
  (fold_left Qplus l 0 / inject_Z (Z.of_nat (length l)) <= b)%Q.
Proof.
  intros Hne HF.
  assert (Hn : (0 < inject_Z (Z.of_nat (length l)))%Q).
  { destruct l; [contradiction|]. unfold Qlt; simpl. lia. }
  apply Qle_shift_div_r; [exact Hn|].
  pose proof (sum_le_bound b l 0 HF). lra.
Qed.

Lemma mean_or_zero_le (l : list Q) :
  Forall (fun x => x <= 98 # 100)%Q l ->
  (match l with
   | [] => 0%Q
   | _ => (fold_left Qplus l 0 / inject_Z (Z.of_nat (length l)))%Q
   end <= 98 # 100)%Q.
Proof.
  intros HF. destruct l as [|x l'].
  - unfold Qle; simpl; lia.
  - apply mean_le_bound; [discriminate | exact HF].
Qed.

Lemma opt_conf_Forall (b : bool) (c : Q) :
  (c <= 98 # 100)%Q -> Forall (fun x => x <= 98 # 100)%Q (if b then [c] else []).
Proof. intros H. destruct b; repeat constructor; exact H. Qed.

Lemma overall_confidence_le rc :
  (rf_confidence (rc_description rc) <= 98 # 100)%Q ->
  (rf_confidence (rc_breaker_amps rc) <= 98 # 100)%Q ->
  (rf_confidence (rc_poles rc) <= 98 # 100)%Q ->
  (rf_confidence (rc_load_type rc) <= 98 # 100)%Q ->
  (overall_confidence rc <= 98 # 100)%Q.
Proof.
  intros H1 H2 H3 H4. unfold overall_confidence. apply mean_or_zero_le.
  apply List.Forall_app; split; [apply opt_conf_Forall; exact H1|].
  apply List.Forall_app; split; [apply opt_conf_Forall; exact H2|].
  apply List.Forall_app; split; apply opt_conf_Forall; assumption.
Qed.

Lemma flat_map_source {A} (f : CircuitObservation -> list (A * Q * string * ExtractionMethod))
  (obs : list CircuitObservation) v c x m :
  (forall o e, In e (f o) -> let '(_, _, s, _) := e in s = source_id o) ->
  In (v, c, x, m) (flat_map f obs) -> exists o, In o obs /\ source_id o = x.
Proof.
  intros Hf Hin. apply in_flat_map in Hin. destruct Hin as (o & Ho & He).
  exists o. split; [exact Ho|]. exact (eq_sym (Hf o _ He)).
Qed.

Ltac field_source_tac :=
  let o := fresh "o" in let e := fresh "e" in let He := fresh "He" in
  intros o e He; cbv beta in He;
  repeat match type of He with
  | context [match ?x with Some _ => _ | None => _ end] => destruct x
  | context [if ?b then _ else _] => destruct b
  end;
  simpl in He; try contradiction; destruct He as [<-|[]]; reflexivity.

Lemma resolve_circuit_facts cn obs :
  let rc := resolve_circuit cn obs in
  (rf_confidence (rc_description rc) <= 98 # 100)%Q /\
  (rf_confidence (rc_breaker_amps rc) <= 98 # 100)%Q /\
  (rf_confidence (rc_poles rc) <= 98 # 100)%Q /\
  (rf_confidence (rc_load_type rc) <= 98 # 100)%Q /\
  (forall x, In x (rf_sources (rc_description rc) ++ rf_sources (rc_breaker_amps rc) ++
                   rf_sources (rc_poles rc) ++ rf_sources (rc_load_type rc)) ->
   exists o, In o obs /\ source_id o = x).
Proof.
  cbn zeta. unfold resolve_circuit. cbn [rc_description rc_breaker_amps rc_poles rc_load_type].
  unfold resolve_str, resolve_int.
  match goal with
  |- (rf_confidence (resolve_field _ _ ?l1) <= _)%Q /\ (rf_confidence (resolve_field _ _ ?l2) <= _)%Q /\
     (rf_confidence (resolve_field _ _ ?l3) <= _)%Q /\ (rf_confidence (resolve_field _ _ ?l4) <= _)%Q /\ _ =>
    destruct (resolve_field_facts norm_str String.eqb l1) as (_ & _ & S1 & _ & C1 & _);
    destruct (resolve_field_facts (fun z : Z => z) Z.eqb l2) as (_ & _ & S2 & _ & C2 & _);
    destruct (resolve_field_facts (fun z : Z => z) Z.eqb l3) as (_ & _ & S3 & _ & C3 & _);
    destruct (resolve_field_facts norm_str String.eqb l4) as (_ & _ & S4 & _ & C4 & _)
  end.
  split; [exact C1|]. split; [exact C2|]. split; [exact C3|]. split; [exact C4|].
  intros x Hx. repeat (apply in_app_or in Hx; destruct Hx as [Hx|Hx]).
  - destruct (S1 x Hx) as (v & c & m & H). eapply flat_map_source; [|exact H]. field_source_tac.
  - destruct (S2 x Hx) as (v & c & m & H). eapply flat_map_source; [|exact H]. field_source_tac.
  - destruct (S3 x Hx) as (v & c & m & H). eapply flat_map_source; [|exact H]. field_source_tac.
  - destruct (S4 x Hx) as (v & c & m & H). eapply flat_map_source; [|exact H]. field_source_tac.
Qed.

Lemma round2_le_98 x : (x <= 98 # 100)%Q -> (Py.round x 2 <= 98 # 100)%Q.
Proof.
  intro H. apply Qle_trans with (Py.round (98 # 100) 2); [apply round_mono; exact H|].
  apply Qle_bool_imp_le. vm_compute. reflexivity.
Qed.

(** ** The summary fold over resolved circuits *)

Lemma summary_fold_spec (cs : list ResolvedCircuit) : forall (A0 A : gset string) tc0 n0 tc n,
  fold_left (fun '(srcs, tc, n) c =>
    (srcs ∪ list_to_set (rf_sources (rc_description c))
          ∪ list_to_set (rf_sources (rc_breaker_amps c))
          ∪ list_to_set (rf_sources (rc_poles c)),
     (tc + overall_confidence c)%Q,
     if rc_needs_review c then S n else n)) cs (A0, tc0, n0) = (A, tc, n) ->
  (n <= n0 + length cs)%nat /\
  (Forall (fun c => overall_confidence c <= 98 # 100)%Q cs ->
   (tc <= tc0 + (98 # 100) * inject_Z (Z.of_nat (length cs)))%Q) /\
  (forall x : string, x ∈ A -> x ∈ A0 \/
     exists c, In c cs /\ In x (rf_sources (rc_description c) ++ rf_sources (rc_breaker_amps c)
                                ++ rf_sources (rc_poles c))).
Proof.
  induction cs as [|c cs IH]; intros A0 A tc0 n0 tc n E; cbn [fold_left] in E.
  - inversion E; subst. split; [lia|]. split.
    + intros _. change (inject_Z (Z.of_nat (length []))) with 0%Q. lra.
    + intros x Hx. left. exact Hx.
  - apply IH in E. destruct E as (Hn & Htc & HS). cbn [length]. split; [|split].
    + destruct (rc_needs_review c); lia.
    + intros HF. inversion HF as [|? ? Hc HF']; subst.
      specialize (Htc HF').
      rewrite Nat2Z.inj_succ, <- Z.add_1_r, inject_Z_plus. change (inject_Z 1) with 1%Q. lra.
    + intros x Hx. destruct (HS x Hx) as [H|(c' & Hc' & Hin)].
      * rewrite !elem_of_union, !elem_of_list_to_set, !list_elem_of_In in H.
        destruct H as [[[H|H]|H]|H]; [left; exact H| | |];
          right; exists c; (split; [left; reflexivity|]); apply in_or_app;
          [left; exact H| |]; right; apply in_or_app; [left|right]; exact H.
      * right. exists c'. split; [right; exact Hc'|exact Hin].
Qed.

Lemma summary_circuits_resolved (all : gmap Z ResolvedCircuit) (per : gmap Z (list CircuitObservation)) :
  (forall c, all !! c = option_map (resolve_circuit c) (per !! c)) ->
  size all = size per /\
  forall rc, In rc (map snd (map_to_list all)) ->
    exists cn obs, per !! cn = Some obs /\ rc = resolve_circuit cn obs.
Proof.
  intros Hall. split.
  - assert (Hd : dom all = dom per).
    { apply set_eq. intro c. rewrite !elem_of_dom, Hall.
      destruct (per !! c); simpl; split; intros [y Hy]; try discriminate; eexists; reflexivity. }
    rewrite <- (size_dom all), <- (size_dom per), Hd. reflexivity.
  - intros rc Hin. apply in_map_iff in Hin. destruct Hin as ([cn rc'] & Hrc & Hin).
    cbn [snd] in Hrc. subst rc'. apply list_elem_of_In, elem_of_map_to_list in Hin.
    rewrite Hall in Hin. destruct (per !! cn) as [obs|] eqn:E; [|discriminate].
    cbn in Hin. injection Hin as <-. exists cn, obs. split; [exact E | reflexivity].
Qed.

(** * Extra properties *)

(** Extra X1.  Everything [_resolve_field] reports comes from its input:
    the winning value, every listed source and every competing value
    occur in some observation, and a non-empty input always yields a
    value. *)
Theorem resolve_field_values_observed {V K : Type} (normalize : V -> K) (key_eqb : K -> K -> bool)
  (obs : list (V * Q * string * ExtractionMethod)) :
  let r := resolve_field normalize key_eqb obs in
  (obs <> [] -> rf_value r <> None) /\
  (forall v, rf_value r = Some v -> exists c s m, In (v, c, s, m) obs) /\
  (forall s, In s (rf_sources r) -> exists v c m, In (v, c, s, m) obs) /\
  (forall v q, In (v, q) (rf_competing_values r) -> exists c s m, In (v, c, s, m) obs).
Proof.
  cbn zeta. destruct (resolve_field_facts normalize key_eqb obs) as (H1 & H2 & H3 & H4 & _).
  split; [exact H1|]. split; [exact H2|]. split; [exact H3|exact H4].
Qed.

(** Extra X2.  The confidence of a resolved field never exceeds 0.98,
    and it is non-negative when every observed confidence is. *)
Theorem resolve_field_confidence_range {V K : Type} (normalize : V -> K) (key_eqb : K -> K -> bool)
  (obs : list (V * Q * string * ExtractionMethod)) :
  let r := resolve_field normalize key_eqb obs in
  (rf_confidence r <= 98 # 100)%Q /\
  (Forall (fun o => let '(_, c, _, _) := o in 0 <= c)%Q obs -> (0 <= rf_confidence r)%Q).
Proof.
  cbn zeta. destruct (resolve_field_facts normalize key_eqb obs) as (_ & _ & _ & _ & H5 & H6).
  split; [exact H5|exact H6].
Qed.

(** Extra X3.  In every state reachable through the service's public
    operations the cache is never stale: [get_resolved_circuit] returns
    exactly the resolution of the circuit's current observations, and
    [None] when the circuit has none. *)
Theorem get_resolved_circuit_fresh (st : AggState) (task_id : string) (cn : Z) :
  service_reachable st ->
  fst (get_resolved_circuit st task_id cn) =
  option_map (resolve_circuit cn) (observations st !! task_id ≫= lookup cn).
Proof.
  intro Hr. apply get_resolved_circuit_exact, service_reachable_cache_exact, Hr.
Qed.

Lemma get_resolved_circuit_fresh_witness :
  service_reachable state_two_photos /\
  fst (get_resolved_circuit state_two_photos "task1" 1) =
  option_map (resolve_circuit 1) (observations state_two_photos !! "task1" ≫= lookup 1).
Proof.
  assert (Hr : service_reachable state_two_photos) by (do 3 apply sr_add; apply sr_empty).
  split; [exact Hr|]. exact (get_resolved_circuit_fresh state_two_photos "task1" 1 Hr).
Defined.

(** Extra X4.  In a reachable state [get_all_resolved_circuits] leaves
    the observations untouched and maps every circuit number with
    observations, and only those, to the fresh resolution of them. *)
Theorem get_all_resolved_circuits_fresh (st : AggState) (task_id : string) :
  service_reachable st ->
  observations (snd (get_all_resolved_circuits st task_id)) = observations st /\
  forall cn, fst (get_all_resolved_circuits st task_id) !! cn =
    option_map (resolve_circuit cn) (observations st !! task_id ≫= lookup cn).
Proof.
  intro Hr. apply get_all_resolved_circuits_exact, service_reachable_cache_exact, Hr.
Qed.

Lemma get_all_resolved_circuits_fresh_witness :
  service_reachable state_two_photos /\
  observations (snd (get_all_resolved_circuits state_two_photos "task1")) = observations state_two_photos /\
  forall cn, fst (get_all_resolved_circuits state_two_photos "task1") !! cn =
    option_map (resolve_circuit cn) (observations state_two_photos !! "task1" ≫= lookup cn).
Proof.
  assert (Hr : service_reachable state_two_photos) by (do 3 apply sr_add; apply sr_empty).
  split; [exact Hr|]. exact (get_all_resolved_circuits_fresh state_two_photos "task1" Hr).
Defined.

(** Extra X5.  [clear_task] forgets a task completely: afterwards every
    circuit of the task resolves to [None] and its summary is the empty
    one, while every other task answers as before. *)
Theorem clear_task_forgets_task (st : AggState) (task_id : string) :
  (forall cn, fst (get_resolved_circuit (clear_task st task_id) task_id cn) = None) /\
  fst (get_aggregation_summary (clear_task st task_id) task_id) = mkAggregationSummary 0 0 0 0 ∅ /\
  (forall other cn, other <> task_id ->
     fst (get_resolved_circuit (clear_task st task_id) other cn) =
     fst (get_resolved_circuit st other cn)).
Proof.
  split; [|split].
  - intro cn. rewrite get_resolved_circuit_fst. unfold clear_task. cbn [observations].
    rewrite lookup_delete_eq. reflexivity.
  - unfold get_aggregation_summary, clear_task. cbn [observations].
    rewrite lookup_delete_eq. reflexivity.
  - intros other cn Hne. rewrite !get_resolved_circuit_fst. unfold clear_task.
    cbn [observations resolved_cache]. rewrite !lookup_delete_ne by congruence. reflexivity.
Qed.

(** Extra X6.  For a task with observations in a reachable state,
    [get_aggregation_summary] counts one circuit per circuit number
    observed, counts each observation once, flags at most that many
    circuits, reports an average confidence of at most 0.98, and lists
    only sources that some observation of the task carries. *)
Theorem get_aggregation_summary_bounds (st : AggState) (task_id : string)
  (per : gmap Z (list CircuitObservation)) :
  service_reachable st -> observations st !! task_id = Some per ->
  let s := fst (get_aggregation_summary st task_id) in
  total_circuits s = size per /\
  total_observations s =
    fold_left (fun n obs => n + length obs)%nat (map snd (map_to_list per)) 0%nat /\
  (circuits_with_conflicts s <= total_circuits s)%nat /\
  (average_confidence s <= 98 # 100)%Q /\
  (forall x, x ∈ summary_sources s ->
   exists cn obs o, per !! cn = Some obs /\ In o obs /\ source_id o = x).
Proof.
  intros Hr Ho. cbn zeta.
  destruct (get_all_resolved_circuits_exact st task_id (service_reachable_cache_exact st Hr))
    as [Hobs Hall].
  unfold get_aggregation_summary. rewrite Ho.
  destruct (get_all_resolved_circuits st task_id) as [all st'] eqn:Eall.
  cbn [fst snd] in Hobs, Hall. rewrite Ho in Hall. cbn [mbind option_bind] in Hall.
  destruct (summary_circuits_resolved all per Hall) as [Hsz Hcs].
  match goal with |- context [fold_left ?f (map snd (map_to_list all)) (∅, 0%Q, 0%nat)] =>
    destruct (fold_left f (map snd (map_to_list all)) (∅, 0%Q, 0%nat)) as [[A tc] n] eqn:Ef end.
  apply summary_fold_spec in Ef. destruct Ef as (Hn & Htc & HA).
  rewrite length_map, length_map_to_list in Hn, Htc.
  rewrite Hobs, Ho. cbn [fst default total_circuits total_observations circuits_with_conflicts
    average_confidence summary_sources].
  assert (HF : Forall (fun c => overall_confidence c <= 98 # 100)%Q (map snd (map_to_list all))).
  { apply List.Forall_forall. intros c Hc. destruct (Hcs c Hc) as (cn & obs & _ & ->).
    destruct (resolve_circuit_facts cn obs) as (C1 & C2 & C3 & C4 & _).
    apply overall_confidence_le; assumption. }
  specialize (Htc HF).
  split; [exact Hsz|]. split; [reflexivity|]. split; [lia|]. split.
  - apply round2_le_98. destruct (Nat.eqb (size all) 0) eqn:Ez.
    + unfold Qle; simpl; lia.
    + apply Nat.eqb_neq in Ez. apply Qle_shift_div_r.
      * unfold Qlt; simpl. lia.
      * rewrite Qmult_comm. lra.
  - intros x Hx. destruct (HA x Hx) as [H|(c & Hc & Hin)].
    + apply elem_of_empty in H. contradiction.
    + destruct (Hcs c Hc) as (cn & obs & Hper & ->).
      destruct (resolve_circuit_facts cn obs) as (_ & _ & _ & _ & HS).
      destruct (HS x) as (o & Hoin & Hsrc).
      { apply in_app_or in Hin.
        destruct Hin as [Hin|Hin]; apply in_or_app; [left; exact Hin|right].
        apply in_app_or in Hin. destruct Hin as [Hin|Hin]; apply in_or_app; [left; exact Hin|right].
        apply in_or_app. left. exact Hin. }
      exists cn, obs, o. split; [exact Hper|]. split; [exact Hoin|exact Hsrc].
Qed.

Lemma get_aggregation_summary_bounds_witness :
  service_reachable state_two_photos /\
  observations state_two_photos !! "task1" =
    Some (default ∅ (observations state_two_photos !! "task1")) /\
  (let s := fst (get_aggregation_summary state_two_photos "task1") in
   total_circuits s = size (default ∅ (observations state_two_photos !! "task1")) /\
   total_observations s =
     fold_left (fun n obs => n + length obs)%nat
       (map snd (map_to_list (default ∅ (observations state_two_photos !! "task1")))) 0%nat /\
   (circuits_with_conflicts s <= total_circuits s)%nat /\
   (average_confidence s <= 98 # 100)%Q /\
   (forall x, x ∈ summary_sources s ->
    exists cn obs o, default ∅ (observations state_two_photos !! "task1") !! cn = Some obs /\
      In o obs /\ source_id o = x)).
Proof.
  assert (Hr : service_reachable state_two_photos) by (do 3 apply sr_add; apply sr_empty).
  assert (Ho : observations state_two_photos !! "task1" =
               Some (default ∅ (observations state_two_photos !! "task1"))) by reflexivity.
  split; [exact Hr|]. split; [exact Ho|].
  exact (get_aggregation_summary_bounds state_two_photos "task1" _ Hr Ho).
Defined.

(** Extra X7.  The dictionary [to_dict] produces for a circuit served in
    a reachable state flags [has_conflicts] exactly when it flags
    [needs_review], reports confidences of at most 0.98, counts the
    circuit's current observations and lists only their sources. *)
Theorem to_dict_served_circuit (st : AggState) (task_id : string) (cn : Z) (rc : ResolvedCircuit) :
  service_reachable st -> fst (get_resolved_circuit st task_id cn) = Some rc ->
  let d := to_dict rc in
  d_has_conflicts d = d_needs_review d /\
  (d_conf_description d <= 98 # 100)%Q /\ (d_conf_breaker_amps d <= 98 # 100)%Q /\
  (d_conf_poles d <= 98 # 100)%Q /\ (d_conf_load_type d <= 98 # 100)%Q /\
  (d_conf_overall d <= 98 # 100)%Q /\
  exists obs, observations st !! task_id ≫= lookup cn = Some obs /\
    d_observations_count d = length obs /\
    (forall x, x ∈ d_sources d -> exists o, In o obs /\ source_id o = x).
Proof.
  intros Hr Hg. cbn zeta.
  rewrite (get_resolved_circuit_exact st task_id cn (service_reachable_cache_exact st Hr)) in Hg.
  destruct (observations st !! task_id ≫= lookup cn) as [obs|] eqn:Eo; [|discriminate].
  cbn in Hg. injection Hg as <-.
  destruct (resolve_circuit_facts cn obs) as (C1 & C2 & C3 & C4 & HS).
  pose proof (overall_confidence_le _ C1 C2 C3 C4) as C5.
  unfold to_dict. cbn [d_has_conflicts d_needs_review d_conf_description d_conf_breaker_amps
    d_conf_poles d_conf_load_type d_conf_overall d_observations_count d_sources].
  split; [reflexivity|].
  split; [apply round2_le_98; exact C1|]. split; [apply round2_le_98; exact C2|].
  split; [apply round2_le_98; exact C3|]. split; [apply round2_le_98; exact C4|].
  split; [apply round2_le_98; exact C5|].
  exists obs. split; [reflexivity|]. split; [reflexivity|].
  intros x Hx. apply elem_of_list_to_set, list_elem_of_In in Hx. exact (HS x Hx).
Qed.

Lemma to_dict_served_circuit_witness :
  service_reachable state_two_photos /\
  fst (get_resolved_circuit state_two_photos "task1" 1) =
    Some (resolve_circuit 1 [obs_panel 1 "LIGHTS" 20 "photo1"; obs_panel 1 "LIGHTS" 30 "photo2"]) /\
  (let d := to_dict (resolve_circuit 1 [obs_panel 1 "LIGHTS" 20 "photo1"; obs_panel 1 "LIGHTS" 30 "photo2"]) in
   d_has_conflicts d = d_needs_review d /\
   (d_conf_description d <= 98 # 100)%Q /\ (d_conf_breaker_amps d <= 98 # 100)%Q /\
   (d_conf_poles d <= 98 # 100)%Q /\ (d_conf_load_type d <= 98 # 100)%Q /\
   (d_conf_overall d <= 98 # 100)%Q /\
   exists obs, observations state_two_photos !! "task1" ≫= lookup 1 = Some obs /\
     d_observations_count d = length obs /\
     (forall x, x ∈ d_sources d -> exists o, In o obs /\ source_id o = x)).
Proof.
  assert (Hr : service_reachable state_two_photos) by (do 3 apply sr_add; apply sr_empty).
  assert (Hg : fst (get_resolved_circuit state_two_photos "task1" 1) =
    Some (resolve_circuit 1 [obs_panel 1 "LIGHTS" 20 "photo1"; obs_panel 1 "LIGHTS" 30 "photo2"]))
    by reflexivity.
  split; [exact Hr|]. split; [exact Hg|].
  exact (to_dict_served_circuit state_two_photos "task1" 1 _ Hr Hg).
Defined.

(** ** Bulk ingestion only appends *)

Lemma obs_extends_add st0 st task_id o :
  obs_extends st0 st -> obs_extends st0 (add_observation st task_id o).
Proof.
  intros H t c. rewrite add_observation_observations.
  case_decide as Hd; [|apply H].
  injection Hd as -> ->. cbn [default]. etrans; [apply H|]. apply prefix_app_r. reflexivity.
Qed.

Lemma obs_extends_get st0 st task_id cn :
  obs_extends st0 st -> obs_extends st0 (snd (get_resolved_circuit st task_id cn)).
Proof. intros H t c. rewrite get_resolved_circuit_observations. apply H. Qed.

Lemma other_tasks_kept_add task_id st0 st o :
  other_tasks_kept task_id st0 st -> other_tasks_kept task_id st0 (add_observation st task_id o).
Proof.
  intros H t Ht. unfold add_observation. cbn [observations].
  rewrite lookup_insert_ne by congruence. apply H, Ht.
Qed.

Lemma other_tasks_kept_get task_id st0 st t2 cn :
  other_tasks_kept task_id st0 st -> other_tasks_kept task_id st0 (snd (get_resolved_circuit st t2 cn)).
Proof. intros H t Ht. rewrite get_resolved_circuit_observations. apply H, Ht. Qed.

Section PreservedAt.
Variable P : AggState -> Prop.
Variable task_id : string.
Hypothesis P_get : forall st t cn, P st -> P (snd (get_resolved_circuit st t cn)).
Hypothesis P_add_at : forall st o, P st -> P (add_observation st task_id o).

Lemma ingest_circuit_P_at source meth st ns circuit st' ns' :
  ingest_circuit task_id source meth (st, ns) circuit = Ok (st', ns') -> P st -> P st'.
Proof.
  intros E H. destruct (ingest_circuit_cases _ _ _ _ _ _ _ _ E)
    as [[-> _]|(cn & o & ex & st1 & nr & E1 & E2 & _)]; [exact H|].
  apply (P_get_eq P P_get _ _ _ _ _ E2), P_add_at, (P_get_eq P P_get _ _ _ _ _ E1), H.
Qed.

Lemma fold_ingest_P_at source meth circuits : forall st ns st' ns',
  fold_py (ingest_circuit task_id source meth) circuits (st, ns) = Ok (st', ns') ->
  P st -> P st'.
Proof.
  induction circuits as [|c circuits IH]; intros st ns st' ns' E H; cbn [fold_py] in E.
  - inversion E; subst. exact H.
  - destruct (ingest_circuit task_id source meth (st, ns) c) as [[st1 ns1]|e] eqn:E1;
      cbn [pbind] in E; [|discriminate].
    exact (IH _ _ _ _ E (ingest_circuit_P_at _ _ _ _ _ _ _ E1 H)).
Qed.

Lemma breaker_observations_P_at source st b :
  P st -> P (breaker_observations task_id source st b).
Proof.
  unfold breaker_observations. generalize st. induction (vb_circuits b) as [|cn l IH];
    intros st0 H; simpl; [exact H|]. apply IH, P_add_at, H.
Qed.

Lemma add_observations_from_ocr_result_P_at st source circuits meth vb ns st' :
  add_observations_from_ocr_result st task_id source circuits meth vb = Ok (ns, st') ->
  P st -> P st'.
Proof.
  unfold add_observations_from_ocr_result. intros E H.
  destruct (fold_py (ingest_circuit task_id source meth) circuits (st, [])) as [[st1 ns1]|e]
    eqn:E1; simpl in E; [|discriminate].
  injection E as _ <-. pose proof (fold_ingest_P_at _ _ _ _ _ _ _ E1 H) as H1.
  destruct vb as [vb|]; [|exact H1]. destruct (ai_vision_success vb); [|exact H1].
  generalize st1 H1. induction (breakers vb) as [|b bs IH]; intros s Hs; simpl; [exact Hs|].
  apply IH, breaker_observations_P_at, Hs.
Qed.
End PreservedAt.

Lemma fold_ingest_notifications task_id source meth circuits : forall st ns st' ns',
  fold_py (ingest_circuit task_id source meth) circuits (st, ns) = Ok (st', ns') ->
  exists extra, ns' = ns ++ extra /\ (length extra <= length circuits)%nat.
Proof.
  induction circuits as [|c circuits IH]; intros st ns st' ns' E; cbn [fold_py] in E.
  - inversion E; subst. exists []. rewrite app_nil_r. split; [reflexivity|simpl; lia].
  - destruct (ingest_circuit task_id source meth (st, ns) c) as [[st1 ns1]|e] eqn:E1;
      cbn [pbind] in E; [|discriminate].
    destruct (IH _ _ _ _ E) as (extra2 & -> & Hl2).
    destruct (ingest_circuit_cases _ _ _ _ _ _ _ _ E1)
      as [[_ ->]|(cn & o & ex & s1 & nr & _ & _ & _ & _ & extra1 & -> & Hl1)].
    + exists extra2. split; [reflexivity|simpl; lia].
    + exists (extra1 ++ extra2). rewrite app_assoc. split; [reflexivity|].
      rewrite length_app. simpl. lia.
Qed.

Lemma fold_ingest_raises task_id source meth c e : forall circuits acc,
  In c circuits ->
  (match oc_number c with None => Ok 0 | Some v => py_int v end) = Raise e ->
  exists e', fold_py (ingest_circuit task_id source meth) circuits acc = Raise e'.
Proof.
  induction circuits as [|c' circuits IH]; intros [st ns] Hin Hc; [destruct Hin|].
  cbn [fold_py]. destruct Hin as [<-|Hin].
  - unfold ingest_circuit at 1. rewrite Hc. cbn [pbind]. exists e. reflexivity.
  - destruct (ingest_circuit task_id source meth (st, ns) c') as [acc'|e'] eqn:E1;
      cbn [pbind]; [|exists e'; reflexivity].
    apply IH; assumption.
Qed.

(** Extra X8.  A successful call of [add_observations_from_ocr_result]
    never removes or reorders observations: every circuit's list of
    observations only grows at its end, the lists of other tasks are not
    touched, and at most one notification is returned per input circuit. *)
Theorem add_observations_from_ocr_result_appends (st : AggState) (task_id source : string)
  (circuits : list OcrCircuit) (meth : ExtractionMethod) (vb : option VisualBreakers)
  (ns : list string) (st' : AggState) :
  add_observations_from_ocr_result st task_id source circuits meth vb = Ok (ns, st') ->
  (length ns <= length circuits)%nat /\
  (forall t c, default [] (observations st !! t ≫= lookup c) `prefix_of`
               default [] (observations st' !! t ≫= lookup c)) /\
  (forall t, t <> task_id -> observations st' !! t = observations st !! t).
Proof.
  intros E. split; [|split].
  - unfold add_observations_from_ocr_result in E.
    destruct (fold_py (ingest_circuit task_id source meth) circuits (st, [])) as [[st1 ns1]|e]
      eqn:E1; cbn [pbind] in E; [|discriminate].
    injection E as <- _. destruct (fold_ingest_notifications _ _ _ _ _ _ _ _ E1) as (extra & -> & Hl).
    exact Hl.
  - refine (add_observations_from_ocr_result_P (obs_extends st) _ _ _ _ _ _ _ _ _ _ E _).
    + intros s t cn H. apply obs_extends_get, H.
    + intros s t o H. apply obs_extends_add, H.
    + intros t c. reflexivity.
  - refine (add_observations_from_ocr_result_P_at (other_tasks_kept task_id st) task_id _ _ _ _ _ _ _ _ _ E _).
    + intros s t cn H. apply other_tasks_kept_get, H.
    + intros s o H. apply other_tasks_kept_add, H.
    + intros t _. reflexivity.
Qed.

Lemma add_observations_from_ocr_result_appends_witness :
  exists ns st', ocr_run_lights = Ok (ns, st') /\
  (length ns <= length [ocr_lights])%nat /\
  (forall t c, default [] (observations state_two_photos !! t ≫= lookup c) `prefix_of`
               default [] (observations st' !! t ≫= lookup c)) /\
  (forall t, t <> "task1"%string -> observations st' !! t = observations state_two_photos !! t).
Proof.
  destruct ocr_run_lights as [[ns st']|e] eqn:E.
  - exists ns, st'. split; [reflexivity|].
    exact (add_observations_from_ocr_result_appends state_two_photos "task1" "photo3"
             [ocr_lights] TEXT_OCR None ns st' E).
  - vm_compute in E. discriminate.
Defined.

(** Extra X9.  One circuit whose [number] cannot be converted by [int]
    makes the whole call of [add_observations_from_ocr_result] raise,
    wherever it stands in the list: no notification is returned. *)
Theorem add_observations_from_ocr_result_raises (st : AggState) (task_id source : string)
  (circuits : list OcrCircuit) (meth : ExtractionMethod) (vb : option VisualBreakers)
  (c : OcrCircuit) (e : PyExc) :
  In c circuits ->
  (match oc_number c with None => Ok 0 | Some v => py_int v end) = Raise e ->
  exists e', add_observations_from_ocr_result st task_id source circuits meth vb = Raise e'.
Proof.
  intros Hin Hc. unfold add_observations_from_ocr_result.
  destruct (fold_ingest_raises task_id source meth c e circuits (st, []) Hin Hc) as [e' ->].
  exists e'. reflexivity.
Qed.

Lemma add_observations_from_ocr_result_raises_witness :
  In ocr_no_number [ocr_lights; ocr_no_number] /\
  (match oc_number ocr_no_number with None => Ok 0 | Some v => py_int v end) = Raise TypeError /\
  exists e', add_observations_from_ocr_result state_two_photos "task1" "photo3"
               [ocr_lights; ocr_no_number] TEXT_OCR None = Raise e'.
Proof.
  assert (Hin : In ocr_no_number [ocr_lights; ocr_no_number]) by (simpl; auto).
  assert (Hc : (match oc_number ocr_no_number with None => Ok 0 | Some v => py_int v end)
               = Raise TypeError) by reflexivity.
  split; [exact Hin|]. split; [exact Hc|].
  exact (add_observations_from_ocr_result_raises state_two_photos "task1" "photo3"
           [ocr_lights; ocr_no_number] TEXT_OCR None ocr_no_number TypeError Hin Hc).
Defined.

(** ** The parameter store *)

Lemma qltb_le a b : Py.qltb a b = true -> (a <= b)%Q.
Proof.
  unfold Py.qltb. intro H. apply negb_true_iff in H.
  destruct (Qlt_le_dec a b) as [Hlt|Hle]; [apply Qlt_le_weak, Hlt|].
  apply Qle_bool_iff in Hle. rewrite Hle in H. discriminate.
Qed.

Lemma update_parameter_other store task_id param_name value confidence meth source_id t p :
  (t, p) <> (task_id, param_name) ->
  get_parameter (snd (update_parameter store task_id param_name value confidence meth source_id)) t p =
  get_parameter store t p.
Proof.
  intro Hne. unfold update_parameter, get_parameter.
  destruct (is_empty_value value); [reflexivity|].
  destruct (decide (t = task_id)) as [->|Ht].
  - assert (Hp : p <> param_name) by congruence.
    destruct (default ∅ (store !! task_id) !! param_name) as [existing|] eqn:Ee;
      [destruct (Py.qltb _ _)|]; cbn [snd];
      rewrite ?lookup_insert_eq; cbn [mbind option_bind]; rewrite ?lookup_insert_ne by congruence;
      destruct (store !! task_id); cbn [default mbind option_bind]; rewrite ?lookup_empty; reflexivity.
  - destruct (default ∅ (store !! task_id) !! param_name) as [existing|];
      [destruct (Py.qltb _ _)|]; cbn [snd]; rewrite ?lookup_insert_ne by congruence; reflexivity.
Qed.

Lemma update_parameter_mono store task_id param_name value confidence meth source_id t p pv :
  get_parameter store t p = Some pv ->
  exists pv', get_parameter (snd (update_parameter store task_id param_name value confidence meth source_id)) t p = Some pv' /\
    (effective_confidence pv <= effective_confidence pv')%Q.
Proof.
  intro Hg.
  destruct (decide ((t, p) = (task_id, param_name))) as [Heq|Hne].
  2: { exists pv. rewrite update_parameter_other by exact Hne. split; [exact Hg|apply Qle_refl]. }
  injection Heq as -> ->. unfold get_parameter in Hg.
  destruct (store !! task_id) as [task|] eqn:Et; cbn [mbind option_bind] in Hg; [|discriminate].
  unfold update_parameter, get_parameter. cbv zeta. rewrite Et. cbn [default id].
  destruct (is_empty_value value).
  { exists pv. cbn [snd]. rewrite Et. split; [exact Hg|apply Qle_refl]. }
  rewrite Hg.
  destruct (Py.qltb (effective_confidence pv) (Py.min 1 (confidence * METHOD_CONFIDENCE_WEIGHTS meth)))
    eqn:Hlt; cbn [snd].
  - eexists. rewrite lookup_insert_eq. cbn [mbind option_bind]. rewrite lookup_insert_eq.
    split; [reflexivity|]. apply qltb_le. exact Hlt.
  - exists pv. rewrite lookup_insert_eq. cbn [mbind option_bind]. split; [exact Hg|apply Qle_refl].
Qed.

Lemma batch_fold_spec task_id confidence meth source_id params : forall results store,
  let r := fold_left (fun '(results, store) '(param_name, value) =>
    if is_tracked (Py.lower param_name) then
      let '(r, store') :=
        update_parameter store task_id (Py.lower param_name) value confidence meth source_id in
      (results ++ [(param_name, r)], store')
    else (results, store)) params (results, store) in
  (forall t p pv, get_parameter store t p = Some pv ->
     exists pv', get_parameter (snd r) t p = Some pv' /\
       (effective_confidence pv <= effective_confidence pv')%Q) /\
  (forall t p, t <> task_id \/ is_tracked p = false -> get_parameter (snd r) t p = get_parameter store t p) /\
  map fst (fst r) = map fst results ++ map fst (List.filter (fun '(n, _) => is_tracked (Py.lower n)) params).
Proof.
  induction params as [|[n v] params IH]; intros results store; cbn zeta; cbn [fold_left].
  - split; [|split].
    + intros t p pv H. exists pv. split; [exact H|apply Qle_refl].
    + intros t p _. reflexivity.
    + cbn [List.filter map]. rewrite app_nil_r. reflexivity.
  - cbn [List.filter]. destruct (is_tracked (Py.lower n)) eqn:Etr.
    + destruct (update_parameter store task_id (Py.lower n) v confidence meth source_id)
        as [r1 store1] eqn:Eu.
      destruct (IH (results ++ [(n, r1)]) store1) as (Hm & Ho & Hr). cbn zeta in Hm, Ho, Hr.
      split; [|split].
      * intros t p pv H.
        destruct (update_parameter_mono store task_id (Py.lower n) v confidence meth source_id t p pv H)
          as (pv1 & H1 & Hle1).
        rewrite Eu in H1. cbn [snd] in H1.
        destruct (Hm t p pv1 H1) as (pv2 & H2 & Hle2).
        exists pv2. split; [exact H2|]. eapply Qle_trans; eassumption.
      * intros t p Htp. rewrite (Ho t p Htp).
        pose proof (update_parameter_other store task_id (Py.lower n) v confidence meth source_id t p) as Hu.
        rewrite Eu in Hu. apply Hu.
        intros [= -> ->]. destruct Htp as [Ht|Hp]; [contradiction|congruence].
      * rewrite Hr, map_app. cbn [map fst]. rewrite <- app_assoc. reflexivity.
    + exact (IH results store).
Qed.

(** Extra X10.  [update_parameters_batch] never loses a parameter and
    never lowers a stored effective confidence; it leaves every other task
    and every parameter outside [TRACKED_PARAMETERS] as it was. *)
Theorem update_parameters_batch_monotone store task_id params confidence meth source_id :
  let store' := snd (update_parameters_batch store task_id params confidence meth source_id) in
  (forall t p pv, get_parameter store t p = Some pv ->
     exists pv', get_parameter store' t p = Some pv' /\
       (effective_confidence pv <= effective_confidence pv')%Q) /\
  (forall t p, t <> task_id \/ is_tracked p = false ->
     get_parameter store' t p = get_parameter store t p).
Proof.
  cbn zeta. unfold update_parameters_batch.
  destruct (batch_fold_spec task_id confidence meth source_id params [] store) as (Hm & Ho & _).
  split; [exact Hm|exact Ho].
Qed.

(** Extra X11.  [update_parameters_batch] reports one result per input
    parameter whose lower-cased name is tracked, under the name as given
    and in input order; other names get no result. *)
Theorem update_parameters_batch_results store task_id params confidence meth source_id :
  map fst (fst (update_parameters_batch store task_id params confidence meth source_id)) =
  map fst (List.filter (fun '(n, _) => is_tracked (Py.lower n)) params).
Proof.
  unfold update_parameters_batch.
  destruct (batch_fold_spec task_id confidence meth source_id params [] store) as (_ & _ & Hr).
  exact Hr.
Qed.

(** Extra X12.  The readers of the parameter store agree with
    [get_parameter]: [get_all_parameters] holds exactly the values
    [get_value] returns, [get_all_with_confidence] reports each stored
    parameter with its effective confidence rounded to 2 decimals, which
    never exceeds 1, and after [clear_task] nothing is stored for the task
    while other tasks keep their parameters. *)
Theorem parameter_store_readers store task_id :
  (forall p, get_all_parameters store task_id !! p = get_value store task_id p) /\
  (forall p, get_all_with_confidence store task_id !! p =
     option_map (fun pv => mkParameterInfo (pv_value pv) (Py.round (effective_confidence pv) 2)
                             (pv_method pv) (pv_source_id pv)) (get_parameter store task_id p)) /\
  (forall p info, get_all_with_confidence store task_id !! p = Some info -> (pi_confidence info <= 1)%Q) /\
  (forall p, get_parameter (clear_parameters store task_id) task_id p = None) /\
  (forall t p, t <> task_id -> get_parameter (clear_parameters store task_id) t p = get_parameter store t p).
Proof.
  assert (Hwc : forall p, get_all_with_confidence store task_id !! p =
     option_map (fun pv => mkParameterInfo (pv_value pv) (Py.round (effective_confidence pv) 2)
                             (pv_method pv) (pv_source_id pv)) (get_parameter store task_id p)).
  { intro p. unfold get_all_with_confidence, get_parameter.
    destruct (store !! task_id) as [task|]; cbn [mbind option_bind].
    - rewrite lookup_fmap. reflexivity.
    - rewrite lookup_empty. reflexivity. }
  split; [|split; [exact Hwc|split; [|split]]].
  - intro p. unfold get_all_parameters, get_value, get_parameter.
    destruct (store !! task_id) as [task|]; cbn [mbind option_bind].
    + rewrite lookup_fmap. reflexivity.
    + rewrite lookup_empty. reflexivity.
  - intros p info H. rewrite Hwc in H.
    destruct (get_parameter store task_id p) as [pv|]; cbn [option_map] in H; [|discriminate].
    injection H as <-. cbn [pi_confidence].
    apply Qle_trans with (Py.round 1 2).
    + apply round_mono. unfold effective_confidence. apply min_le_l.
    + apply Qle_bool_imp_le. vm_compute. reflexivity.
  - intro p. unfold get_parameter, clear_parameters. rewrite lookup_delete_eq. reflexivity.
  - intros t p Ht. unfold get_parameter, clear_parameters. rewrite lookup_delete_ne by congruence.
    reflexivity.
Qed.

(** ** Observations of the AI Vision breakers *)

Lemma breaker_fold_spec task_id source b cn : forall (cs : list Z) st,
  exists extra,
    default [] (observations (fold_left (fun st c =>
      add_observation st task_id
        {| circuit_num := c; source_id := source; method := AI_VISION;
           description := match vb_description b with
                          | Some d => if Py.str_truthy d then Some d else None
                          | None => None end;
           description_confidence := 85 # 100;
           breaker_amps := vb_amps b; amps_confidence := 85 # 100;
           poles := vb_poles b; poles_confidence := 90 # 100;
           load_amps := None; load_confidence := 8 # 10;
           load_type := match vb_load_type b with
             | Some s => if Py.str_truthy s then
                           let t := Py.strip (Py.upper s) in
                           if existsb (String.eqb t) LOAD_TYPES then Some t else None
                         else Some s
             | None => None end;
           load_type_confidence := 85 # 100 |}) cs st) !! task_id ≫= lookup cn) =
    default [] (observations st !! task_id ≫= lookup cn) ++ extra /\
    length extra = count_occ Z.eq_dec cs cn /\
    Forall (breaker_obs_ok source b cn) extra.
Proof.
  induction cs as [|c cs IH]; intros st; cbn [fold_left].
  - exists []. rewrite app_nil_r. split; [reflexivity|]. split; [reflexivity|constructor].
  - match goal with |- context [fold_left ?g cs (add_observation st task_id ?o)] =>
      destruct (IH (add_observation st task_id o)) as (extra & Hx & Hl & HF);
      rewrite add_observation_observations in Hx; cbn [circuit_num] in Hx
    end.
    cbn [count_occ]. destruct (Z.eq_dec c cn) as [->|Hc].
    + rewrite decide_True in Hx by reflexivity. cbn [default id] in Hx.
      eexists (_ :: extra). rewrite Hx, <- app_assoc. split; [reflexivity|].
      split; [cbn [length]; rewrite Hl; reflexivity|].
      constructor; [|exact HF].
      unfold breaker_obs_ok; cbn [circuit_num source_id method breaker_amps poles load_type].
      do 5 (split; [reflexivity|]).
      destruct (vb_load_type b) as [s|]; [|left; reflexivity].
      destruct (Py.str_truthy s) eqn:Es.
      * cbn zeta. destruct (existsb (String.eqb (Py.strip (Py.upper s))) LOAD_TYPES) eqn:Ex;
          [|left; reflexivity].
        right; right. eexists. split; [reflexivity|].
        apply existsb_exists in Ex. destruct Ex as (t & Ht & Eq).
        apply String.eqb_eq in Eq. rewrite Eq. exact Ht.
      * right; left. unfold Py.str_truthy in Es. f_equal.
        destruct s; [reflexivity|discriminate].
    + rewrite decide_False in Hx by congruence. exists extra. split; [exact Hx|].
      split; [exact Hl|exact HF].
Qed.

(** Extra X13.  [breaker_observations] appends to each circuit exactly
    one observation per occurrence of the circuit in the breaker's
    [circuits] list, and nothing to the others; each carries the call's
    source, the method AI_VISION, the breaker's amps and poles, and a
    load type that is absent, the empty string, or one of [LOAD_TYPES]. *)
Theorem breaker_observations_appends task_id source st b cn :
  exists extra,
    default [] (observations (breaker_observations task_id source st b) !! task_id ≫= lookup cn) =
    default [] (observations st !! task_id ≫= lookup cn) ++ extra /\
    length extra = count_occ Z.eq_dec (vb_circuits b) cn /\
    Forall (breaker_obs_ok source b cn) extra.
Proof.
  unfold breaker_observations. apply breaker_fold_spec.
Qed.

(** ** No circuit is kept without observations *)

Lemma obs_nonempty_add st task_id o : obs_nonempty st -> obs_nonempty (add_observation st task_id o).
Proof.
  intros H t c obs Hl. rewrite add_observation_observations in Hl.
  case_decide; [|exact (H t c obs Hl)].
  injection Hl as <-. intro He. apply app_eq_nil in He. destruct He as [_ He]. discriminate.
Qed.

Lemma obs_nonempty_get st task_id cn : obs_nonempty st -> obs_nonempty (snd (get_resolved_circuit st task_id cn)).
Proof. intros H t c obs. rewrite get_resolved_circuit_observations. apply H. Qed.

Lemma obs_nonempty_clear st task_id : obs_nonempty st -> obs_nonempty (clear_task st task_id).
Proof.
  intros H t c obs. unfold clear_task. cbn [observations].
  destruct (decide (t = task_id)) as [->|Ht].
  - rewrite lookup_delete_eq. discriminate.
  - rewrite lookup_delete_ne by congruence. apply H.
Qed.

Lemma service_reachable_obs_nonempty st : service_reachable st -> obs_nonempty st.
Proof.
  induction 1.
  - intros t c obs. cbn. rewrite lookup_empty. discriminate.
  - apply obs_nonempty_add. assumption.
  - eapply add_observations_from_ocr_result_P;
      [exact obs_nonempty_get | exact obs_nonempty_add | eassumption | assumption].
  - apply obs_nonempty_get. assumption.
  - apply (get_all_resolved_circuits_P obs_nonempty obs_nonempty_get). assumption.
  - apply (get_aggregation_summary_P obs_nonempty obs_nonempty_get). assumption.
  - apply obs_nonempty_clear. assumption.
Qed.

Lemma sum_lengths_ge (l : list (list CircuitObservation)) : forall acc,
  Forall (fun obs => obs <> []) l ->
  (acc + length l <= fold_left (fun n obs => n + length obs)%nat l acc)%nat.
Proof.
  induction l as [|x l IH]; intros acc HF; cbn [fold_left length]; [lia|].
  inversion HF as [|? ? Hx HF']; subst.
  specialize (IH (acc + length x)%nat HF').
  destruct x; [contradiction|]. cbn [length] in *. lia.
Qed.

(** Extra X14.  In a reachable state every circuit a task knows has at
    least one observation, so the summary of a task never reports more
    circuits than observations. *)
Theorem get_aggregation_summary_observations_cover (st : AggState) (task_id : string) :
  service_reachable st ->
  (total_circuits (fst (get_aggregation_summary st task_id)) <=
   total_observations (fst (get_aggregation_summary st task_id)))%nat.
Proof.
  intro Hr. pose proof (service_reachable_obs_nonempty st Hr) as Hne.
  destruct (observations st !! task_id) as [per|] eqn:Ho.
  2: { unfold get_aggregation_summary. rewrite Ho. cbn. lia. }
  destruct (get_all_resolved_circuits_exact st task_id (service_reachable_cache_exact st Hr))
    as [Hobs Hall].
  unfold get_aggregation_summary. rewrite Ho.
  destruct (get_all_resolved_circuits st task_id) as [all st'] eqn:Eall.
  cbn [fst snd] in Hobs, Hall. rewrite Ho in Hall. cbn [mbind option_bind] in Hall.
  destruct (summary_circuits_resolved all per Hall) as [Hsz _].
  match goal with |- context [fold_left ?f (map snd (map_to_list all)) (∅, 0%Q, 0%nat)] =>
    destruct (fold_left f (map snd (map_to_list all)) (∅, 0%Q, 0%nat)) as [[A tc] n] end.
  rewrite Hobs, Ho. cbn [fst default id total_circuits total_observations].
  rewrite Hsz, <- length_map_to_list, <- (length_map snd (map_to_list per)).
  apply (sum_lengths_ge _ 0%nat).
  apply List.Forall_forall. intros obs Hin. apply in_map_iff in Hin.
  destruct Hin as ([c obs'] & Hs & Hin). cbn [snd] in Hs. subst obs'.
  apply list_elem_of_In, elem_of_map_to_list in Hin.
  apply (Hne task_id c obs). rewrite Ho. exact Hin.
Qed.

Lemma get_aggregation_summary_observations_cover_witness :
  service_reachable state_two_photos /\
  (total_circuits (fst (get_aggregation_summary state_two_photos "task1")) <=
   total_observations (fst (get_aggregation_summary state_two_photos "task1")))%nat.
Proof.
  assert (Hr : service_reachable state_two_photos) by (do 3 apply sr_add; apply sr_empty).
  split; [exact Hr|]. exact (get_aggregation_summary_observations_cover state_two_photos "task1" Hr).
Defined.
